(** * Bigram language model and constrained sequence generators

    A shallow embedding of [src/homework/language_models.py]:
    [bigram_model], [_is_punct], [_get_row], [_get_prob],
    [sequence_generator] and [sequence_generator_plus].

    Modelling conventions.
    - A token is a [string]; the sentinels are [UNKNOWN] (the empty string)
      and [INIT].
    - The outer dictionary of the model is a [gmap string Row].  A row is a
      Python dict whose iteration order (insertion order) decides ties when
      [sorted] is applied to its items, so a row is an association list in
      insertion order; reads take the first binding of a key.
    - Python floats are idealised as exact rationals [Q].  A natural
      logarithm is kept symbolically: [Ln q] stands for the real number
      ln(q) of a positive rational [q], [NegInf] for minus infinity, and the
      sum of two logarithms is the logarithm of the product.  NaN and
      infinite table entries are outside the model.  Rounding matters where
      two sums of logarithms are compared, in the first loop of
      [sequence_generator_plus]: that loop is also given over an arbitrary
      arithmetic of logarithms ([log_arith]), of which the exact one is an
      instance.
    - [math.log] raises [ValueError] on a non-positive argument; fallible
      code returns a [result]. *)

From Stdlib Require Import QArith Qabs Sorted.
From stdpp Require Import gmap strings list fin_maps fin_sets.

Set Warnings "-clear-no-such-hyp".

Open Scope string_scope.
Open Scope Z_scope.

(** ** Tokens *)

Definition UNKNOWN : string := "".
Definition INIT : string := "[INIT]".

(** [string.punctuation]: the 32 ASCII punctuation characters.  The double
    quote (code 34) is put in front of the others. *)
Definition punctuation : string :=
  String (Ascii.ascii_of_nat 34) "!#$%&'()*+,-./:;<=>?@[\]^_`{|}~".

Fixpoint string_mem (ch : Ascii.ascii) (s : string) : bool :=
  match s with
  | EmptyString => false
  | String c s' => if Ascii.eqb ch c then true else string_mem ch s'
  end.

Fixpoint string_all (f : Ascii.ascii → bool) (s : string) : bool :=
  match s with
  | EmptyString => true
  | String c s' => f c && string_all f s'
  end.

(** [tok != "" and all(ch in string.punctuation for ch in tok)] *)
Definition _is_punct (tok : string) : bool :=
  negb (String.eqb tok "") && string_all (λ ch, string_mem ch punctuation) tok.

(** ** Rows and tables *)

(** A row: the dictionary from current word to probability, in insertion
    order. *)
Abbreviation Row := (list (string * Q)).

(** Modelled from the spec: the type [Bigram] is imported from
    [src.ngram_models], which is not among the sources.  By the docstring of
    [bigram_model] and the data model of the specification it is a
    dictionary from previous word to a dictionary from current word to
    probability. *)
Abbreviation Bigram := (gmap string Row).

(** [curr in row] and [row[curr]] in one read: the binding of [k], if any. *)
Fixpoint row_get (row : Row) (k : string) : option Q :=
  match row with
  | [] => None
  | (k', v) :: row' => if String.eqb k k' then Some v else row_get row' k
  end.

Definition row_keys (row : Row) : list string := row.*1.

(** [bigram_probs[prev]] if [prev in bigram_probs], else
    [bigram_probs.get(UNKNOWN, {})]. *)
Definition _get_row (bigram_probs : Bigram) (prev : string) : Row :=
  match bigram_probs !! prev with
  | Some row => row
  | None => default [] (bigram_probs !! UNKNOWN)
  end.

(** [row[curr]] if [curr in row], else [row.get(UNKNOWN, 0.0)]. *)
Definition _get_prob (bigram_probs : Bigram) (prev curr : string) : Q :=
  let row := _get_row bigram_probs prev in
  match row_get row curr with
  | Some p => p
  | None => default 0%Q (row_get row UNKNOWN)
  end.

(** ** Reading the corpus *)

(** The ASCII characters that [str.strip] and [str.split] treat as white
    space: codes 9 to 13 and 28 to 32. *)
Definition is_space (ch : Ascii.ascii) : bool :=
  let n := Ascii.nat_of_ascii ch in
  ((9 <=? n) && (n <=? 13) || (28 <=? n) && (n <=? 32))%nat.

Fixpoint lstrip (s : string) : string :=
  match s with
  | EmptyString => EmptyString
  | String c s' => if is_space c then lstrip s' else s
  end.

Fixpoint rstrip (s : string) : string :=
  match s with
  | EmptyString => EmptyString
  | String c s' =>
      let r := rstrip s' in
      if is_space c && String.eqb r "" then EmptyString else String c r
  end.

(** [line.strip()] *)
Definition strip (s : string) : string := rstrip (lstrip s).

(** [split_go cur s]: [cur] is the word being read. *)
Fixpoint split_go (cur : string) (s : string) : list string :=
  match s with
  | EmptyString => if String.eqb cur "" then [] else [cur]
  | String c s' =>
      if is_space c
      then (if String.eqb cur "" then split_go "" s' else cur :: split_go "" s')
      else split_go (cur +:+ String c "") s'
  end.

(** [line.split()]: the maximal runs of non-space characters. *)
Definition split (s : string) : list string := split_go "" s.

(** ** Counting bigrams *)

(** The three accumulators of [bigram_model].  The two [defaultdict]s read
    a missing key as 0 (respectively as an empty inner dictionary). *)
Record counts : Type := mk_counts {
  bigram_counts : gmap string (gmap string nat);
  prev_counts : gmap string nat;
  vocab : gset string
}.

Definition empty_counts : counts := mk_counts ∅ ∅ ∅.

(** [bigram_counts.get(prev, {}).get(curr, 0)] *)
Definition bigram_count (c : counts) (prev curr : string) : nat :=
  default 0%nat (default ∅ (bigram_counts c !! prev) !! curr).

(** [prev_counts.get(prev, 0)] *)
Definition prev_count (c : counts) (prev : string) : nat :=
  default 0%nat (prev_counts c !! prev).

(** One iteration of [for curr in words]; the second component is the
    variable [prev]. *)
Definition count_word (acc : counts * string) (curr : string) : counts * string :=
  let '(c, prev) := acc in
  let inner := default ∅ (bigram_counts c !! prev) in
  (mk_counts
     (<[prev := <[curr := S (default 0%nat (inner !! curr))]> inner]> (bigram_counts c))
     (<[prev := S (default 0%nat (prev_counts c !! prev))]> (prev_counts c))
     (vocab c),
   curr).

(** One iteration of [for line in f]. *)
Definition count_line (c : counts) (line : string) : counts :=
  let line := strip line in
  if String.eqb line "" then c
  else
    let words := split line in
    let c1 := mk_counts (bigram_counts c) (prev_counts c)
                        (foldl (λ v w, v ∪ {[w]}) (vocab c) words) in
    (foldl count_word (c1, INIT) words).1.

Definition count_corpus (lines : list string) : counts :=
  foldl count_line empty_counts lines.

(** [(temp + 1) / denom], true division of two integers. *)
Definition smoothed (temp denom : nat) : Q :=
  (inject_Z (Z.of_nat (temp + 1)) / inject_Z (Z.of_nat denom))%Q.

(** The inner loop [for curr in next_vocab]. *)
Definition build_row (c : counts) (next_vocab : gset string) (smooth : nat)
    (prev : string) : Row :=
  let denom := (prev_count c prev + smooth)%nat in
  (λ curr, (curr, smoothed (bigram_count c prev curr) denom)) <$> elements next_vocab.

(** [bigram_model], on the lines of the file.  A Python [set] is iterated
    in an unspecified order; [elements] fixes one. *)
Definition bigram_model (lines : list string) : Bigram :=
  let c := count_corpus lines in
  let next_vocab := vocab c ∪ {[UNKNOWN]} in
  let smooth := size next_vocab in
  let prev_vocab := dom (prev_counts c) ∪ {[INIT]} ∪ {[UNKNOWN]} in
  foldl (λ model prev, <[prev := build_row c next_vocab smooth prev]> model)
        ∅ (elements prev_vocab).

(** ** Logarithms and errors *)

Inductive result (A : Type) : Type :=
  | Ok (a : A)
  | ValueError.
Arguments Ok {A} a.
Arguments ValueError {A}.

(** [x < y] on rationals, as a boolean. *)
Definition Qlt_b (x y : Q) : bool := negb (Qle_bool y x).

(** An extended real that is a logarithm: [Ln q] is ln(q), for [q > 0]. *)
Inductive logv : Type :=
  | NegInf
  | Ln (q : Q).

(** [0.0] *)
Definition log_zero : logv := Ln 1.

(** [math.log(x)]: a domain error unless [x > 0]. *)
Definition math_log (x : Q) : result logv :=
  if Qlt_b 0 x then Ok (Ln x) else ValueError.

(** [math.log(p) if p > 0 else float("-inf")] *)
Definition guarded_log (p : Q) : logv :=
  if Qlt_b 0 p then Ln p else NegInf.

(** [a + b]: ln(x) + ln(y) = ln(x * y), and minus infinity absorbs. *)
Definition log_add (a b : logv) : logv :=
  match a, b with
  | Ln x, Ln y => Ln (x * y)
  | _, _ => NegInf
  end.

(** [a > b] *)
Definition log_gt (a b : logv) : bool :=
  match a, b with
  | NegInf, _ => false
  | Ln _, NegInf => true
  | Ln x, Ln y => Qlt_b y x
  end.

(** [a != float("-inf")] *)
Definition log_finite (a : logv) : bool :=
  match a with
  | NegInf => false
  | Ln _ => true
  end.

(** Two logarithms denote the same extended real. *)
Definition log_eq (a b : logv) : Prop :=
  match a, b with
  | NegInf, NegInf => True
  | Ln x, Ln y => (x == y)%Q
  | _, _ => False
  end.

(** ** Sorting the candidates *)

(** [insert_desc x l] puts [x] in front of the first item whose value is
    not above [x]'s. *)
Fixpoint insert_desc (x : string * Q) (l : list (string * Q)) : list (string * Q) :=
  match l with
  | [] => [x]
  | y :: l' => if Qlt_b x.2 y.2 then y :: insert_desc x l' else x :: y :: l'
  end.

(** [sorted(row.items(), key=lambda kv: kv[1], reverse=True)]: by value,
    highest first; the sort is stable, so items of equal value keep the
    order of the row. *)
Definition sorted_desc (row : Row) : list (string * Q) :=
  foldr insert_desc [] row.

(** [x] comes before [y] in a list sorted by value, highest first. *)
Definition desc (x y : string * Q) : Prop := (y.2 <= x.2)%Q.

(** ** The state of a generation *)

Record state : Type := mk_state {
  seq : list string;
  logp : logv;
  punct_used : Z;
  used_nonpunct : gset string;
  prev : string
}.

(** The branch of the loop body that produced a token; [Seed] is the first
    element of the sequence, which no branch chooses. *)
Inductive origin : Type :=
  | Seed
  | FirstPass
  | RelaxedPass
  | AbsoluteFallback.

Global Instance origin_eq_dec : EqDecision origin.
Proof. solve_decision. Defined.

(** The first loop over [candidates]: the constraints, and [UNKNOWN] is
    skipped. *)
Fixpoint first_pass (max_punct punct_used : Z) (used_nonpunct : gset string)
    (candidates : list (string * Q)) : option (string * Q) :=
  match candidates with
  | [] => None
  | (tok, p) :: rest =>
      if String.eqb tok INIT then first_pass max_punct punct_used used_nonpunct rest
      else
        let is_p := _is_punct tok in
        if is_p && (max_punct <=? punct_used)
        then first_pass max_punct punct_used used_nonpunct rest
        else if negb is_p && bool_decide (tok ∈ used_nonpunct)
        then first_pass max_punct punct_used used_nonpunct rest
        else if String.eqb tok UNKNOWN
        then first_pass max_punct punct_used used_nonpunct rest
        else Some (tok, p)
  end.

(** The second loop over [candidates]: the constraints only. *)
Fixpoint relaxed_pass (max_punct punct_used : Z) (used_nonpunct : gset string)
    (candidates : list (string * Q)) : option (string * Q) :=
  match candidates with
  | [] => None
  | (tok, p) :: rest =>
      if String.eqb tok INIT then relaxed_pass max_punct punct_used used_nonpunct rest
      else
        let is_p := _is_punct tok in
        if is_p && (max_punct <=? punct_used)
        then relaxed_pass max_punct punct_used used_nonpunct rest
        else if negb is_p && bool_decide (tok ∈ used_nonpunct)
        then relaxed_pass max_punct punct_used used_nonpunct rest
        else Some (tok, p)
  end.

(** The end of the loop body, from [seq.append(chosen)] on. *)
Definition commit (bigram_probs : Bigram) (st : state) (chosen : string) : state :=
  let p_use := _get_prob bigram_probs (prev st) chosen in
  mk_state
    (seq st ++ [chosen])
    (log_add (logp st) (guarded_log p_use))
    (if _is_punct chosen then punct_used st + 1 else punct_used st)
    (if _is_punct chosen then used_nonpunct st else used_nonpunct st ∪ {[chosen]})
    chosen.

(** The state before the loop. *)
Definition initial_state (init_word : string) (logp0 : logv) : state :=
  mk_state
    [init_word]
    logp0
    (if _is_punct init_word then 1 else 0)
    (if _is_punct init_word then ∅ else {[init_word]})
    init_word.

(** [math.log(_get_prob(bigram_probs, INIT, init_word)) if init_word else 0.0] *)
Definition initial_logp (bigram_probs : Bigram) (init_word : string) : result logv :=
  if String.eqb init_word "" then Ok log_zero
  else math_log (_get_prob bigram_probs INIT init_word).

(** ** The greedy generator *)

(** The token chosen by one iteration, with the branch that chose it. *)
Definition greedy_choice (bigram_probs : Bigram) (max_punct : Z) (st : state)
    : origin * string :=
  let row := _get_row bigram_probs (prev st) in
  let candidates := sorted_desc row in
  match first_pass max_punct (punct_used st) (used_nonpunct st) candidates with
  | Some (tok, _) => (FirstPass, tok)
  | None =>
      match relaxed_pass max_punct (punct_used st) (used_nonpunct st) candidates with
      | Some (tok, _) => (RelaxedPass, tok)
      | None => (AbsoluteFallback, UNKNOWN)
      end
  end.

Definition greedy_step (bigram_probs : Bigram) (max_punct : Z) (st : state) : state :=
  commit bigram_probs st (greedy_choice bigram_probs max_punct st).2.

(** [while len(seq) < length]: [fuel] bounds the number of iterations. *)
Fixpoint greedy_loop (bigram_probs : Bigram) (len max_punct : Z) (fuel : nat)
    (st : state) : state :=
  match fuel with
  | O => st
  | S fuel' =>
      if Z.of_nat (length (seq st)) <? len
      then greedy_loop bigram_probs len max_punct fuel'
             (greedy_step bigram_probs max_punct st)
      else st
  end.

Definition sequence_generator (bigram_probs : Bigram) (init_word : string) (len : Z)
    : result (list string * logv) :=
  if len <=? 0 then Ok ([], log_zero)
  else
    let max_punct := len / 5 in
    match initial_logp bigram_probs init_word with
    | ValueError => ValueError
    | Ok logp0 =>
        let st := greedy_loop bigram_probs len max_punct (Z.to_nat len)
                    (initial_state init_word logp0) in
        Ok (seq st, logp st)
    end.

(** The branches taken by the iterations of [greedy_loop], in order. *)
Fixpoint greedy_trace (bigram_probs : Bigram) (len max_punct : Z) (fuel : nat)
    (st : state) : list (origin * string) :=
  match fuel with
  | O => []
  | S fuel' =>
      if Z.of_nat (length (seq st)) <? len
      then greedy_choice bigram_probs max_punct st
           :: greedy_trace bigram_probs len max_punct fuel'
                (greedy_step bigram_probs max_punct st)
      else []
  end.

(** ** The lookahead generator *)

(** The inner loop over [cand2]: the logarithm of the first admissible
    continuation, minus infinity when there is none. *)
Fixpoint best_log_next (max_punct new_punct_used : Z) (new_used_nonpunct : gset string)
    (cand2 : list (string * Q)) : logv :=
  match cand2 with
  | [] => NegInf
  | (tok2, p23) :: rest =>
      if String.eqb tok2 INIT
      then best_log_next max_punct new_punct_used new_used_nonpunct rest
      else
        let is_p2 := _is_punct tok2 in
        if is_p2 && (max_punct <=? new_punct_used)
        then best_log_next max_punct new_punct_used new_used_nonpunct rest
        else if negb is_p2 && bool_decide (tok2 ∈ new_used_nonpunct)
        then best_log_next max_punct new_punct_used new_used_nonpunct rest
        else guarded_log p23
  end.

(** [score] of a first-step candidate that passed the constraints. *)
Definition lookahead_score (bigram_probs : Bigram) (max_punct punct_used : Z)
    (used_nonpunct : gset string) (tok : string) (p12 : Q) : logv :=
  let is_p := _is_punct tok in
  let new_punct_used := punct_used + (if is_p then 1 else 0) in
  let new_used_nonpunct := used_nonpunct ∪ (if negb is_p then {[tok]} else ∅) in
  let row2 := _get_row bigram_probs tok in
  let cand2 := sorted_desc row2 in
  let bln := best_log_next max_punct new_punct_used new_used_nonpunct cand2 in
  log_add (guarded_log p12) (if log_finite bln then bln else log_zero).

(** The first loop over [cand1]; [best] is [(best_tok, best_p)] and
    [best_score] starts at minus infinity. *)
Fixpoint lookahead_pass (bigram_probs : Bigram) (max_punct punct_used : Z)
    (used_nonpunct : gset string) (cand1 : list (string * Q))
    (best : option (string * Q)) (best_score : logv) : option (string * Q) :=
  match cand1 with
  | [] => best
  | (tok, p12) :: rest =>
      let skip := lookahead_pass bigram_probs max_punct punct_used used_nonpunct
                    rest best best_score in
      if String.eqb tok INIT then skip
      else
        let is_p := _is_punct tok in
        if is_p && (max_punct <=? punct_used) then skip
        else if negb is_p && bool_decide (tok ∈ used_nonpunct) then skip
        else if String.eqb tok UNKNOWN then skip
        else
          let score := lookahead_score bigram_probs max_punct punct_used
                         used_nonpunct tok p12 in
          if log_gt score best_score
          then lookahead_pass bigram_probs max_punct punct_used used_nonpunct
                 rest (Some (tok, p12)) score
          else skip
  end.

Definition plus_choice (bigram_probs : Bigram) (max_punct : Z) (st : state)
    : origin * string :=
  let row1 := _get_row bigram_probs (prev st) in
  let cand1 := sorted_desc row1 in
  match lookahead_pass bigram_probs max_punct (punct_used st) (used_nonpunct st)
          cand1 None NegInf with
  | Some (tok, _) => (FirstPass, tok)
  | None =>
      match relaxed_pass max_punct (punct_used st) (used_nonpunct st) cand1 with
      | Some (tok, _) => (RelaxedPass, tok)
      | None => (AbsoluteFallback, UNKNOWN)
      end
  end.

Definition plus_step (bigram_probs : Bigram) (max_punct : Z) (st : state) : state :=
  commit bigram_probs st (plus_choice bigram_probs max_punct st).2.

Fixpoint plus_loop (bigram_probs : Bigram) (len max_punct : Z) (fuel : nat)
    (st : state) : state :=
  match fuel with
  | O => st
  | S fuel' =>
      if Z.of_nat (length (seq st)) <? len
      then plus_loop bigram_probs len max_punct fuel'
             (plus_step bigram_probs max_punct st)
      else st
  end.

Definition sequence_generator_plus (bigram_probs : Bigram) (init_word : string)
    (len : Z) : result (list string * logv) :=
  if len <=? 0 then Ok ([], log_zero)
  else
    let max_punct := len / 5 in
    match initial_logp bigram_probs init_word with
    | ValueError => ValueError
    | Ok logp0 =>
        let st := plus_loop bigram_probs len max_punct (Z.to_nat len)
                    (initial_state init_word logp0) in
        Ok (seq st, logp st)
    end.

Fixpoint plus_trace (bigram_probs : Bigram) (len max_punct : Z) (fuel : nat)
    (st : state) : list (origin * string) :=
  match fuel with
  | O => []
  | S fuel' =>
      if Z.of_nat (length (seq st)) <? len
      then plus_choice bigram_probs max_punct st
           :: plus_trace bigram_probs len max_punct fuel'
                (plus_step bigram_probs max_punct st)
      else []
  end.

(** ** The corpus as the specification describes it *)

(** The tokens of a line: white-space splitting; a blank line has none. *)
Definition line_tokens (line : string) : list string := split (strip line).

(** The consecutive (previous, current) pairs of a line, the first previous
    token being [INIT]. *)
Definition line_bigrams (words : list string) : list (string * string) :=
  zip (INIT :: words) words.

Definition corpus_bigrams (lines : list string) : list (string * string) :=
  flat_map (λ line, line_bigrams (line_tokens line)) lines.

(** count(p,c): the occurrences of the pair in the corpus. *)
Definition spec_count (bs : list (string * string)) (p c : string) : nat :=
  length (filter (λ b, b = (p, c)) bs).

(** totalCount(p): the occurrences of [p] as a previous token. *)
Definition spec_totalCount (bs : list (string * string)) (p : string) : nat :=
  length (filter (λ b, b.1 = p) bs).

(** The distinct tokens observed as a current token. *)
Definition spec_vocabulary (lines : list string) : gset string :=
  list_to_set (flat_map line_tokens lines).

(** The sum of the values of a row. *)
Definition row_sum (row : Row) : Q := foldr Qplus 0%Q row.*2.

(** The counters hold the tallies of the list [bs] of pairs. *)
Definition tallies (c : counts) (bs : list (string * string)) : Prop :=
  (∀ p x, bigram_count c p x = spec_count bs p x)
  ∧ (∀ p, prev_count c p = spec_totalCount bs p)
  ∧ dom (prev_counts c) = list_to_set bs.*1.

(** ** The constraints, and the branches of a run *)

(** A candidate passes the shared constraints: it is not [INIT], it does
    not exceed the punctuation budget, and it is not a non-punctuation token
    used before. *)
Definition admissible (max_punct punct_used : Z) (used_nonpunct : gset string)
    (tok : string) : bool :=
  negb (String.eqb tok INIT)
  && negb (_is_punct tok && (max_punct <=? punct_used))
  && negb (negb (_is_punct tok) && bool_decide (tok ∈ used_nonpunct)).

(** The number of punctuation tokens of a sequence. *)
Definition punct_count (s : list string) : nat := length (List.filter _is_punct s).

(** The two loops have one shape: a choice, then [commit]. *)
Fixpoint run_loop (bigram_probs : Bigram) (choice : state → origin * string)
    (len : Z) (fuel : nat) (st : state) : state :=
  match fuel with
  | O => st
  | S fuel' =>
      if Z.of_nat (length (seq st)) <? len
      then run_loop bigram_probs choice len fuel' (commit bigram_probs st (choice st).2)
      else st
  end.

Fixpoint run_trace (bigram_probs : Bigram) (choice : state → origin * string)
    (len : Z) (fuel : nat) (st : state) : list (origin * string) :=
  match fuel with
  | O => []
  | S fuel' =>
      if Z.of_nat (length (seq st)) <? len
      then choice st
           :: run_trace bigram_probs choice len fuel' (commit bigram_probs st (choice st).2)
      else []
  end.

(** The tokens of the sequence of [sequence_generator], each with the
    branch that produced it. *)
Definition sequence_generator_origins (bigram_probs : Bigram) (init_word : string)
    (len : Z) : result (list (origin * string)) :=
  if len <=? 0 then Ok []
  else
    match initial_logp bigram_probs init_word with
    | ValueError => ValueError
    | Ok logp0 =>
        Ok ((Seed, init_word)
            :: greedy_trace bigram_probs len (len / 5) (Z.to_nat len)
                 (initial_state init_word logp0))
    end.

(** The same for [sequence_generator_plus]. *)
Definition sequence_generator_plus_origins (bigram_probs : Bigram)
    (init_word : string) (len : Z) : result (list (origin * string)) :=
  if len <=? 0 then Ok []
  else
    match initial_logp bigram_probs init_word with
    | ValueError => ValueError
    | Ok logp0 =>
        Ok ((Seed, init_word)
            :: plus_trace bigram_probs len (len / 5) (Z.to_nat len)
                 (initial_state init_word logp0))
    end.

(** ** The lookahead score, as the specification words it *)

(** [a <= b] on logarithms. *)
Definition log_le (a b : logv) : Prop :=
  match a, b with
  | NegInf, _ => True
  | Ln _, NegInf => False
  | Ln x, Ln y => (x <= y)%Q
  end.

(** Every entry of the table is a positive probability. *)
Definition table_positiveb (bigram_probs : Bigram) : bool :=
  forallb (λ kr, forallb (λ kv, Qlt_b 0 kv.2) kr.2) (map_to_list bigram_probs).

(** The hypothetical constraint state after [tok]: the punctuation count is
    incremented if [tok] is punctuation, the set of used tokens is extended
    with [tok] if it is not. *)
Definition hyp_punct_used (punct_used : Z) (tok : string) : Z :=
  if _is_punct tok then punct_used + 1 else punct_used.

Definition hyp_used_nonpunct (used_nonpunct : gset string) (tok : string) : gset string :=
  if _is_punct tok then used_nonpunct else used_nonpunct ∪ {[tok]}.

(** The admissible continuations from the row of [tok]. *)
Definition continuations (bigram_probs : Bigram) (max_punct punct_used : Z)
    (used_nonpunct : gset string) (tok : string) : list (string * Q) :=
  List.filter
    (λ kv, admissible max_punct (hyp_punct_used punct_used tok)
             (hyp_used_nonpunct used_nonpunct tok) kv.1)
    (_get_row bigram_probs tok).

(** The highest of [p] and the probabilities of [l]. *)
Definition max_prob (p : Q) (l : list Q) : Q :=
  foldr (λ q m, if Qlt_b m q then q else m) p l.

(** bestNextLog(tok): the logarithm of the highest-probability admissible
    continuation, 0 when there is none.  The logarithm of a probability that
    is not positive is minus infinity. *)
Definition spec_bestNextLog (bigram_probs : Bigram) (max_punct punct_used : Z)
    (used_nonpunct : gset string) (tok : string) : logv :=
  match continuations bigram_probs max_punct punct_used used_nonpunct tok with
  | [] => log_zero
  | (_, p) :: rest => guarded_log (max_prob p rest.*2)
  end.

(** score(tok) = ln(probability(tok|prev)) + bestNextLog(tok). *)
Definition spec_score (bigram_probs : Bigram) (max_punct punct_used : Z)
    (used_nonpunct : gset string) (tok : string) (p12 : Q) : logv :=
  log_add (guarded_log p12)
          (spec_bestNextLog bigram_probs max_punct punct_used used_nonpunct tok).

(** The admissible first-step candidates other than [UNKNOWN]. *)
Definition first_step_candidate (max_punct punct_used : Z)
    (used_nonpunct : gset string) (kv : string * Q) : bool :=
  admissible max_punct punct_used used_nonpunct kv.1
  && negb (String.eqb kv.1 UNKNOWN).

(** The two strategies behind the one contract [generate]. *)
Inductive strategy : Type :=
  | Greedy
  | Lookahead.

Definition generate (g : strategy) : Bigram → string → Z → result (list string * logv) :=
  match g with
  | Greedy => sequence_generator
  | Lookahead => sequence_generator_plus
  end.

Definition generate_origins (g : strategy)
    : Bigram → string → Z → result (list (origin * string)) :=
  match g with
  | Greedy => sequence_generator_origins
  | Lookahead => sequence_generator_plus_origins
  end.

(** [UNKNOWN] chosen by one of the two selection passes. *)
Definition unknown_by_pass (e : origin * string) : bool :=
  String.eqb e.2 UNKNOWN
  && (bool_decide (e.1 = FirstPass) || bool_decide (e.1 = RelaxedPass)).

(** Each token of a trace fits the branch it is tagged with. *)
Definition well_tagged (e : origin * string) : Prop :=
  match e.1 with
  | Seed => True
  | FirstPass => e.2 ≠ UNKNOWN ∧ e.2 ≠ INIT
  | RelaxedPass => e.2 ≠ INIT
  | AbsoluteFallback => e.2 = UNKNOWN
  end.

(** A non-punctuation token that occurred earlier occurs again only through
    the absolute fallback. *)
Definition no_repeat (tr : list (origin * string)) : Prop :=
  ∀ i j o w, (i < j)%nat → tr.*2 !! i = Some w → tr !! j = Some (o, w) →
    _is_punct w = false → o = AbsoluteFallback.

(** What a choice must satisfy for the invariants of the loop. *)
Definition choice_ok (max_punct : Z) (choice : state → origin * string) : Prop :=
  ∀ st,
    match choice st with
    | (Seed, _) => False
    | (FirstPass, tok) =>
        admissible max_punct (punct_used st) (used_nonpunct st) tok = true
        ∧ tok ≠ UNKNOWN
    | (RelaxedPass, tok) =>
        admissible max_punct (punct_used st) (used_nonpunct st) tok = true
    | (AbsoluteFallback, tok) => tok = UNKNOWN
    end.

(** The invariant of the loop; [tr] is the trace of the sequence so far. *)
Definition loop_inv (init_word : string) (max_punct : Z) (st : state)
    (tr : list (origin * string)) : Prop :=
  seq st = tr.*2
  ∧ punct_used st = Z.of_nat (punct_count (seq st))
  ∧ (∀ w, w ∈ seq st → _is_punct w = false → w ∈ used_nonpunct st)
  ∧ punct_used st ≤ Z.max max_punct (if _is_punct init_word then 1 else 0)
  ∧ no_repeat tr
  ∧ Forall well_tagged tr
  ∧ head tr = Some (Seed, init_word).

Definition ex_corpus : list string := ["the cat sat"; "the dog ran"].

(** The state of a generation from [ex_corpus] after [the cat sat]. *)
Definition ex_state : state :=
  mk_state ["the"; "cat"; "sat"] log_zero 0 {["the"; "cat"; "sat"]} "sat".

(** The state of a generation from [ex_corpus] once every token of the
    vocabulary, [UNKNOWN] included, is used. *)
Definition ex_state_exhausted : state :=
  mk_state ["the"; "cat"; "sat"; "ran"; "dog"; ""] log_zero 0
           {["the"; "cat"; "sat"; "ran"; "dog"; ""]} "".

(** A corpus with punctuation tokens. *)
Definition punct_corpus : list string := ["wait , what ! no , yes"; "yes , no !"].

(** A table in which the seed [a] has probability exactly 0 after [INIT]. *)
Definition zero_seed_table : Bigram :=
  <[INIT := [("a", 0%Q); ("b", 1%Q)]]> ∅.

(** A table in which the transition from [a] to [b] has probability 0. *)
Definition zero_step_table : Bigram :=
  <["a" := [("b", 0%Q)]]> (<[INIT := [("a", 1%Q)]]> ∅).

(** ** The absolute fallback, read on the returned sequence *)

(** The non-punctuation tokens of a sequence: the set [used_nonpunct] once
    the sequence has been produced. *)
Definition used_of (s : list string) : gset string :=
  list_to_set (List.filter (λ w, negb (_is_punct w)) s).

(** After the tokens [pre], no entry of the row resolved for the last of
    them passes the constraints.  The row may be empty or not. *)
Definition nothing_admissible (bigram_probs : Bigram) (max_punct : Z)
    (pre : list string) : Prop :=
  ∃ a, last pre = Some a
    ∧ ∀ c, In c (_get_row bigram_probs a) →
        admissible max_punct (Z.of_nat (punct_count pre)) (used_of pre) c.1 = false.

(** Wherever a trace is tagged with the absolute fallback, nothing was
    admissible after the tokens before that position. *)
Definition fallback_justified (bigram_probs : Bigram) (max_punct : Z)
    (tr : list (origin * string)) : Prop :=
  ∀ j w, tr !! j = Some (AbsoluteFallback, w) →
    nothing_admissible bigram_probs max_punct (take j tr.*2).

(** The constraint state is a function of the sequence produced so far. *)
Definition fallback_inv (bigram_probs : Bigram) (max_punct : Z) (st : state)
    (tr : list (origin * string)) : Prop :=
  seq st = tr.*2
  ∧ punct_used st = Z.of_nat (punct_count (seq st))
  ∧ used_nonpunct st = used_of (seq st)
  ∧ last (seq st) = Some (prev st)
  ∧ fallback_justified bigram_probs max_punct tr.

(** ** The lookahead pass over any arithmetic of logarithms

    The first loop of [sequence_generator_plus] uses four operations on
    floats, [math.log], [+], [>] and [!= float("-inf")], and the two
    constants [0.0] and [float("-inf")].  A [log_arith] holds them, so that
    the loop is read over any arithmetic: the exact logarithms [logv] are
    one, the floats of Python with their rounding another.  The
    probabilities of the table are compared with each other and with 0 as
    they are stored, without arithmetic. *)
Record log_arith : Type := mk_log_arith {
  lval : Type;
  a_log : Q → lval;
  a_add : lval → lval → lval;
  a_zero : lval;
  a_neg_inf : lval;
  a_gt : lval → lval → bool;
  a_ne_neg_inf : lval → bool
}.

(** [math.log(p) if p > 0 else float("-inf")] *)
Definition guarded_log_in (A : log_arith) (p : Q) : lval A :=
  if Qlt_b 0 p then a_log A p else a_neg_inf A.

(** The inner loop over [cand2]. *)
Fixpoint best_log_next_in (A : log_arith) (max_punct new_punct_used : Z)
    (new_used_nonpunct : gset string) (cand2 : list (string * Q)) : lval A :=
  match cand2 with
  | [] => a_neg_inf A
  | (tok2, p23) :: rest =>
      if String.eqb tok2 INIT
      then best_log_next_in A max_punct new_punct_used new_used_nonpunct rest
      else
        let is_p2 := _is_punct tok2 in
        if is_p2 && (max_punct <=? new_punct_used)
        then best_log_next_in A max_punct new_punct_used new_used_nonpunct rest
        else if negb is_p2 && bool_decide (tok2 ∈ new_used_nonpunct)
        then best_log_next_in A max_punct new_punct_used new_used_nonpunct rest
        else guarded_log_in A p23
  end.

(** [score] of a first-step candidate that passed the constraints. *)
Definition lookahead_score_in (A : log_arith) (bigram_probs : Bigram)
    (max_punct punct_used : Z) (used_nonpunct : gset string) (tok : string)
    (p12 : Q) : lval A :=
  let is_p := _is_punct tok in
  let new_punct_used := punct_used + (if is_p then 1 else 0) in
  let new_used_nonpunct := used_nonpunct ∪ (if negb is_p then {[tok]} else ∅) in
  let row2 := _get_row bigram_probs tok in
  let cand2 := sorted_desc row2 in
  let bln := best_log_next_in A max_punct new_punct_used new_used_nonpunct cand2 in
  a_add A (guarded_log_in A p12) (if a_ne_neg_inf A bln then bln else a_zero A).

(** The first loop over [cand1]. *)
Fixpoint lookahead_pass_in (A : log_arith) (bigram_probs : Bigram)
    (max_punct punct_used : Z) (used_nonpunct : gset string)
    (cand1 : list (string * Q)) (best : option (string * Q)) (best_score : lval A)
    : option (string * Q) :=
  match cand1 with
  | [] => best
  | (tok, p12) :: rest =>
      let skip := lookahead_pass_in A bigram_probs max_punct punct_used used_nonpunct
                    rest best best_score in
      if String.eqb tok INIT then skip
      else
        let is_p := _is_punct tok in
        if is_p && (max_punct <=? punct_used) then skip
        else if negb is_p && bool_decide (tok ∈ used_nonpunct) then skip
        else if String.eqb tok UNKNOWN then skip
        else
          let score := lookahead_score_in A bigram_probs max_punct punct_used
                         used_nonpunct tok p12 in
          if a_gt A score best_score
          then lookahead_pass_in A bigram_probs max_punct punct_used used_nonpunct
                 rest (Some (tok, p12)) score
          else skip
  end.

(** The token chosen by one iteration of [sequence_generator_plus]. *)
Definition plus_choice_in (A : log_arith) (bigram_probs : Bigram) (max_punct : Z)
    (st : state) : origin * string :=
  let row1 := _get_row bigram_probs (prev st) in
  let cand1 := sorted_desc row1 in
  match lookahead_pass_in A bigram_probs max_punct (punct_used st) (used_nonpunct st)
          cand1 None (a_neg_inf A) with
  | Some (tok, _) => (FirstPass, tok)
  | None =>
      match relaxed_pass max_punct (punct_used st) (used_nonpunct st) cand1 with
      | Some (tok, _) => (RelaxedPass, tok)
      | None => (AbsoluteFallback, UNKNOWN)
      end
  end.

(** The exact logarithms: the arithmetic of [lookahead_score],
    [lookahead_pass] and [plus_choice]. *)
Definition exact_arith : log_arith :=
  mk_log_arith logv Ln log_add log_zero NegInf log_gt log_finite.

(** What the loop relies on.  [>] is the strict part of a total preorder;
    minus infinity is recognised, and is not the logarithm of a positive
    number; a sum is above minus infinity when its first term is the
    logarithm of a positive number and its second term such a logarithm
    or 0, and is not when its first term is minus infinity.  The exact
    logarithms satisfy these laws, and so do the floats other than NaN: the
    logarithm of a positive float is finite, and the scores of the loop are
    finite or minus infinity. *)
Record arith_laws (A : log_arith) : Prop := mk_arith_laws {
  gt_irrefl : ∀ a, a_gt A a a = false;
  gt_asym : ∀ a b, a_gt A a b = true → a_gt A b a = false;
  not_gt_trans : ∀ a b c,
    a_gt A a b = false → a_gt A b c = false → a_gt A a c = false;
  neg_inf_recognised : a_ne_neg_inf A (a_neg_inf A) = false;
  log_not_neg_inf : ∀ p, (0 < p)%Q → a_ne_neg_inf A (a_log A p) = true;
  add_log_log : ∀ p q, (0 < p)%Q → (0 < q)%Q →
    a_gt A (a_add A (a_log A p) (a_log A q)) (a_neg_inf A) = true;
  add_log_zero : ∀ p, (0 < p)%Q →
    a_gt A (a_add A (a_log A p) (a_zero A)) (a_neg_inf A) = true;
  add_neg_inf : ∀ b, a_gt A (a_add A (a_neg_inf A) b) (a_neg_inf A) = false
}.

(** The entry of highest probability of a list, the first of them in the
    order of the list when several have it. *)
Definition best_entry (l : list (string * Q)) : option (string * Q) :=
  foldr (λ x acc,
           match acc with
           | Some y => if Qlt_b x.2 y.2 then Some y else Some x
           | None => Some x
           end) None l.

(** The second term of a score as the loop computes it: the logarithm of
    the probability of the highest-probability admissible continuation when
    that probability is positive; 0 when it is not, and when there is no
    admissible continuation. *)
Definition computed_bestNextLog (A : log_arith) (bigram_probs : Bigram)
    (max_punct punct_used : Z) (used_nonpunct : gset string) (tok : string) : lval A :=
  match best_entry (continuations bigram_probs max_punct punct_used used_nonpunct tok) with
  | Some (_, p23) => if Qlt_b 0 p23 then a_log A p23 else a_zero A
  | None => a_zero A
  end.

(** The score as the loop computes it: the logarithm of the probability of
    the candidate, minus infinity if that probability is not positive, plus
    [computed_bestNextLog]. *)
Definition computed_score (A : log_arith) (bigram_probs : Bigram)
    (max_punct punct_used : Z) (used_nonpunct : gset string) (tok : string)
    (p12 : Q) : lval A :=
  a_add A (guarded_log_in A p12)
        (computed_bestNextLog A bigram_probs max_punct punct_used used_nonpunct tok).

(** A table in which the one continuation of [x] has probability 0. *)
Definition zero_continuation_table : Bigram :=
  <["y" := [("z", 1%Q)]]>
    (<["x" := [("z", 0%Q)]]>
       (<["s" := [("x", (3 # 4)%Q); ("y", (1 # 4)%Q)]]> (<[INIT := [("s", 1%Q)]]> ∅))).

(** A table in which the one candidate other than [UNKNOWN] after [s] has
    probability 0. *)
Definition zero_candidate_table : Bigram :=
  <["s" := [("", (1 # 2)%Q); ("y", 0%Q)]]> (<[INIT := [("s", 1%Q)]]> ∅).

(** ** Further notions for the properties of the whole file *)

(** A character that is not white space. *)
Definition not_space (ch : Ascii.ascii) : bool := negb (is_space ch).

(** The logarithms of the transitions of a sequence, [guarded_log] of the
    probability of each token after the one before it. *)
Definition step_logs (bigram_probs : Bigram) (s : list string) : list logv :=
  zip_with (λ a b, guarded_log (_get_prob bigram_probs a b)) s (tail s).

(** Every token of [s] is related to the token before it. *)
Definition chain (R : string → string → Prop) (s : list string) : Prop :=
  ∀ i a b, s !! i = Some a → s !! S i = Some b → R a b.

(** The choice of a strategy. *)
Definition strategy_choice (g : strategy) (bigram_probs : Bigram) (max_punct : Z)
    : state → origin * string :=
  match g with
  | Greedy => greedy_choice bigram_probs max_punct
  | Lookahead => plus_choice bigram_probs max_punct
  end.

(** The logarithm of a probability: of a rational in (0, 1]. *)
Definition log_of_probability (a : logv) : Prop :=
  match a with
  | NegInf => False
  | Ln q => (0 < q)%Q ∧ (q <= 1)%Q
  end.

(** ** [text_processing.py]: the helpers of [chronicles_of_narnia]

    The two nested functions that use no regular expression.  Strings are
    strings of ASCII characters: [str.strip], [str.upper], [str.isdigit]
    and [int] are modelled on them, and the properties of [roman_to_int]
    are stated for numerals written in ASCII letters, on which the branch
    of the digits is not taken. *)

(** The first character of a literal. *)
Definition char_of (s : string) : Ascii.ascii :=
  match s with
  | EmptyString => Ascii.zero
  | String c _ => c
  end.

(** [str.upper], character by character. *)
Definition upper_char (ch : Ascii.ascii) : Ascii.ascii :=
  let n := Ascii.nat_of_ascii ch in
  if ((97 <=? n) && (n <=? 122))%nat then Ascii.ascii_of_nat (n - 32) else ch.

Fixpoint upper (s : string) : string :=
  match s with
  | EmptyString => EmptyString
  | String c s' => String (upper_char c) (upper s')
  end.

Definition is_digit (ch : Ascii.ascii) : bool :=
  let n := Ascii.nat_of_ascii ch in ((48 <=? n) && (n <=? 57))%nat.

(** [s.isdigit()]: non-empty and digits only. *)
Definition isdigit (s : string) : bool :=
  negb (String.eqb s "") && string_all is_digit s.

(** [int(s)] for a string of digits; [acc] is the value read so far. *)
Fixpoint int_of_digits (acc : Z) (s : string) : Z :=
  match s with
  | EmptyString => acc
  | String c s' =>
      int_of_digits (10 * acc + Z.of_nat (Ascii.nat_of_ascii c - 48)) s'
  end.

(** The dictionary [roman_numerals]. *)
Definition roman_numerals (ch : Ascii.ascii) : option Z :=
  if Ascii.eqb ch (char_of "I") then Some 1
  else if Ascii.eqb ch (char_of "V") then Some 5
  else if Ascii.eqb ch (char_of "X") then Some 10
  else if Ascii.eqb ch (char_of "L") then Some 50
  else if Ascii.eqb ch (char_of "C") then Some 100
  else if Ascii.eqb ch (char_of "D") then Some 500
  else if Ascii.eqb ch (char_of "M") then Some 1000
  else None.

(** The values of the dictionary. *)
Definition roman_value (v : Z) : Prop :=
  v = 1 ∨ v = 5 ∨ v = 10 ∨ v = 50 ∨ v = 100 ∨ v = 500 ∨ v = 1000.

(** [char in roman_numerals] *)
Definition is_roman (ch : Ascii.ascii) : bool :=
  match roman_numerals ch with Some _ => true | None => false end.

(** One iteration of [for char in reversed(roman)]; the state is
    [(total, prev_value)].  The key is in the dictionary when the loop is
    reached. *)
Definition roman_step (acc : Z * Z) (char : Ascii.ascii) : Z * Z :=
  let '(total, prev_value) := acc in
  let value := default 0 (roman_numerals char) in
  if value <? prev_value then (total - value, value) else (total + value, value).

(** [roman_to_int]; [None] is Python's [None]. *)
Definition roman_to_int (roman : string) : option Z :=
  let roman := upper (strip roman) in
  if isdigit roman then Some (int_of_digits 0 roman)
  else if String.eqb roman "" then None
  else if negb (string_all is_roman roman) then None
  else Some (foldl roman_step (0, 0) (rev (String.list_ascii_of_string roman))).1.

(** [get_next_nonempty_line]: the first index after [start_idx] of a line
    that is not empty. *)
Definition get_next_nonempty_line (lines : list string) (start_idx : nat) : option nat :=
  List.find (λ i, negb (String.eqb (default "" (lines !! i)) ""))
            (List.seq (start_idx + 1) (length lines - (start_idx + 1)))%nat.

(** The standard numeral of a number below 4000, digit by digit. *)
Definition canonical_roman (n : nat) : string :=
  nth (n / 1000)%nat [""; "M"; "MM"; "MMM"] ""
  +:+ nth (n / 100 mod 10)%nat
        [""; "C"; "CC"; "CCC"; "CD"; "D"; "DC"; "DCC"; "DCCC"; "CM"] ""
  +:+ nth (n / 10 mod 10)%nat
        [""; "X"; "XX"; "XXX"; "XL"; "L"; "LX"; "LXX"; "LXXX"; "XC"] ""
  +:+ nth (n mod 10)%nat
        [""; "I"; "II"; "III"; "IV"; "V"; "VI"; "VII"; "VIII"; "IX"] "".

(** * Properties *)

(** ** Strings and rationals *)

Lemma eqb_true_iff (a b : string) : String.eqb a b = true ↔ a = b.
Proof. apply String.eqb_eq. Qed.

Lemma eqb_false_iff (a b : string) : String.eqb a b = false ↔ a ≠ b.
Proof. apply String.eqb_neq. Qed.

Lemma Qlt_b_true (x y : Q) : Qlt_b x y = true ↔ (x < y)%Q.
Proof.
  unfold Qlt_b. rewrite negb_true_iff.
  split.
  - intros H. apply Qnot_le_lt. intros Hle.
    apply Qle_bool_iff in Hle. congruence.
  - intros H. destruct (Qle_bool y x) eqn:E; [|done].
    apply Qle_bool_iff in E. exfalso. by apply (Qlt_not_le x y).
Qed.

Lemma Qlt_b_false (x y : Q) : Qlt_b x y = false ↔ (y <= x)%Q.
Proof.
  unfold Qlt_b. rewrite negb_false_iff. apply Qle_bool_iff.
Qed.

Lemma is_punct_UNKNOWN : _is_punct UNKNOWN = false.
Proof. reflexivity. Qed.

Lemma is_punct_INIT : _is_punct INIT = false.
Proof. reflexivity. Qed.

(** ** Rows and lookups *)

Lemma row_get_Some (row : Row) k v :
  row_get row k = Some v → (k, v) ∈ row.
Proof.
  induction row as [|[k' v'] row IH]; simpl; [done|].
  destruct (String.eqb k k') eqn:E.
  - apply eqb_true_iff in E as ->. intros [= ->]. left.
  - intros H. right. by apply IH.
Qed.

Lemma row_get_None (row : Row) k :
  row_get row k = None ↔ k ∉ row_keys row.
Proof.
  unfold row_keys.
  induction row as [|[k' v'] row IH]; simpl.
  - split; [intros _; apply not_elem_of_nil | done].
  - destruct (String.eqb k k') eqn:E.
    + apply eqb_true_iff in E as ->. split; [done|].
      intros H. exfalso. apply H. left.
    + apply eqb_false_iff in E. rewrite IH, not_elem_of_cons. tauto.
Qed.

Lemma row_get_is_Some (row : Row) k :
  is_Some (row_get row k) ↔ k ∈ row_keys row.
Proof.
  destruct (row_get row k) eqn:E.
  - split; [intros _|by eauto].
    apply row_get_Some in E. unfold row_keys.
    apply list_elem_of_fmap. by exists (k, q).
  - split; [by intros [? ?]|].
    intros H. by apply row_get_None in E.
Qed.

(** C3. [_get_row] returns the row of [prev] when [prev] is a key of the
    table, otherwise the row of [UNKNOWN] when that is a key, otherwise the
    empty row; [_get_prob] returns the entry of [curr] in the resolved row
    when [curr] is a key of it, otherwise the entry of [UNKNOWN] when that
    is a key, otherwise 0. *)
Theorem get_row_get_prob_fallback (bigram_probs : Bigram) (prev curr : string) :
  _get_row bigram_probs prev =
    (if decide (prev ∈ dom bigram_probs) then bigram_probs !!! prev
     else if decide (UNKNOWN ∈ dom bigram_probs) then bigram_probs !!! UNKNOWN
     else [])
  ∧ _get_prob bigram_probs prev curr =
    (let row := _get_row bigram_probs prev in
     if decide (curr ∈ row_keys row) then default 0%Q (row_get row curr)
     else if decide (UNKNOWN ∈ row_keys row) then default 0%Q (row_get row UNKNOWN)
     else 0%Q).
Proof.
  split.
  - unfold _get_row.
    destruct (bigram_probs !! prev) as [row|] eqn:Hp.
    + rewrite decide_True by (apply elem_of_dom; eauto).
      by rewrite lookup_total_alt, Hp.
    + rewrite decide_False by (by apply not_elem_of_dom).
      destruct (bigram_probs !! UNKNOWN) as [row|] eqn:Hu.
      * rewrite decide_True by (apply elem_of_dom; eauto).
        by rewrite lookup_total_alt, Hu.
      * by rewrite decide_False by (by apply not_elem_of_dom).
  - unfold _get_prob. cbv zeta.
    destruct (row_get (_get_row bigram_probs prev) curr) as [p|] eqn:Hc.
    + rewrite decide_True; [done|]. apply row_get_is_Some. eauto.
    + rewrite decide_False by (by apply row_get_None).
      destruct (row_get (_get_row bigram_probs prev) UNKNOWN) as [p|] eqn:Hu; simpl.
      * rewrite decide_True; [done|]. apply row_get_is_Some. eauto.
      * by rewrite decide_False by (by apply row_get_None).
Qed.

(** ** Counting *)

Lemma spec_count_nil p c : spec_count [] p c = 0%nat.
Proof. reflexivity. Qed.

Lemma spec_count_app bs1 bs2 p c :
  spec_count (bs1 ++ bs2) p c = (spec_count bs1 p c + spec_count bs2 p c)%nat.
Proof. unfold spec_count. by rewrite filter_app, length_app. Qed.

Lemma spec_count_cons b bs p c :
  spec_count (b :: bs) p c =
    ((if decide (b = (p, c)) then 1 else 0) + spec_count bs p c)%nat.
Proof. unfold spec_count. rewrite filter_cons. by case_decide. Qed.

Lemma spec_totalCount_app bs1 bs2 p :
  spec_totalCount (bs1 ++ bs2) p = (spec_totalCount bs1 p + spec_totalCount bs2 p)%nat.
Proof. unfold spec_totalCount. by rewrite filter_app, length_app. Qed.

Lemma spec_totalCount_cons b bs p :
  spec_totalCount (b :: bs) p =
    ((if decide (b.1 = p) then 1 else 0) + spec_totalCount bs p)%nat.
Proof. unfold spec_totalCount. rewrite filter_cons. by case_decide. Qed.

Lemma tallies_empty : tallies empty_counts [].
Proof.
  split; [|split].
  - intros p x. unfold bigram_count. simpl. by rewrite lookup_empty.
  - intros p. unfold prev_count. simpl. by rewrite lookup_empty.
  - simpl. apply dom_empty_L.
Qed.

Lemma count_word_tallies c bs prev0 curr :
  tallies c bs → tallies (count_word (c, prev0) curr).1 (bs ++ [(prev0, curr)]).
Proof.
  intros (Hb & Hp & Hd). split; [|split].
  - intros p x. rewrite spec_count_app, spec_count_cons, spec_count_nil, <- Hb.
    unfold bigram_count. simpl.
    destruct (decide (prev0 = p)) as [->|Hne].
    + rewrite lookup_insert_eq. simpl.
      destruct (decide (curr = x)) as [->|Hne'].
      * rewrite lookup_insert_eq, decide_True by done. simpl. lia.
      * rewrite lookup_insert_ne, decide_False by congruence. lia.
    + rewrite lookup_insert_ne, decide_False by congruence. lia.
  - intros p. rewrite spec_totalCount_app, spec_totalCount_cons, <- Hp.
    unfold prev_count, spec_totalCount. simpl.
    destruct (decide (prev0 = p)) as [->|Hne].
    + rewrite lookup_insert_eq. simpl. lia.
    + rewrite lookup_insert_ne by done. lia.
  - simpl. rewrite dom_insert_L, Hd, fmap_app, list_to_set_app_L. simpl.
    set_solver.
Qed.

Lemma count_word_vocab c prev0 curr :
  vocab (count_word (c, prev0) curr).1 = vocab c.
Proof. reflexivity. Qed.

Lemma foldl_count_word_tallies words : ∀ c bs prev0,
  tallies c bs →
  tallies (foldl count_word (c, prev0) words).1 (bs ++ zip (prev0 :: words) words).
Proof.
  induction words as [|w ws IH]; intros c bs prev0 Hc.
  - simpl. by rewrite app_nil_r.
  - change (zip (prev0 :: w :: ws) (w :: ws)) with ((prev0, w) :: zip (w :: ws) ws).
    rewrite (cons_middle (prev0, w)), app_assoc.
    change (foldl count_word (c, prev0) (w :: ws))
      with (foldl count_word (count_word (c, prev0) w) ws).
    destruct (count_word (c, prev0) w) as [c1 prev1] eqn:E.
    assert (prev1 = w) as -> by (by inversion E).
    apply IH.
    replace c1 with (count_word (c, prev0) w).1 by (by rewrite E).
    by apply count_word_tallies.
Qed.

Lemma foldl_count_word_vocab words : ∀ c prev0,
  vocab (foldl count_word (c, prev0) words).1 = vocab c.
Proof.
  induction words as [|w ws IH]; intros c prev0; [done|].
  simpl. by rewrite IH.
Qed.

Lemma foldl_add_vocab words : ∀ v : gset string,
  foldl (λ v w, v ∪ {[w]}) v words = v ∪ list_to_set words.
Proof.
  induction words as [|w ws IH]; intros v; simpl.
  - set_solver.
  - rewrite IH. set_solver.
Qed.

Lemma split_empty : split "" = [].
Proof. reflexivity. Qed.

Lemma count_line_tallies c bs line :
  tallies c bs →
  tallies (count_line c line) (bs ++ line_bigrams (line_tokens line)).
Proof.
  intros Hc. unfold count_line, line_bigrams, line_tokens.
  destruct (String.eqb (strip line) "") eqn:E.
  - apply eqb_true_iff in E. rewrite E, split_empty. simpl. by rewrite app_nil_r.
  - apply foldl_count_word_tallies. exact Hc.
Qed.

Lemma count_line_vocab c line :
  vocab (count_line c line) = vocab c ∪ list_to_set (line_tokens line).
Proof.
  unfold count_line, line_tokens.
  destruct (String.eqb (strip line) "") eqn:E.
  - apply eqb_true_iff in E. rewrite E, split_empty. set_solver.
  - rewrite foldl_count_word_vocab. simpl. apply foldl_add_vocab.
Qed.

Lemma foldl_count_line_tallies lines : ∀ c bs,
  tallies c bs → tallies (foldl count_line c lines) (bs ++ corpus_bigrams lines).
Proof.
  induction lines as [|l ls IH]; intros c bs Hc; simpl.
  - by rewrite app_nil_r.
  - rewrite app_assoc. apply IH. by apply count_line_tallies.
Qed.

Lemma foldl_count_line_vocab lines : ∀ c,
  vocab (foldl count_line c lines) = vocab c ∪ list_to_set (flat_map line_tokens lines).
Proof.
  induction lines as [|l ls IH]; intros c; simpl.
  - set_solver.
  - rewrite IH, count_line_vocab, list_to_set_app_L. set_solver.
Qed.

Lemma count_corpus_tallies lines :
  tallies (count_corpus lines) (corpus_bigrams lines).
Proof.
  unfold count_corpus.
  apply (foldl_count_line_tallies lines empty_counts []), tallies_empty.
Qed.

Lemma count_corpus_vocab lines :
  vocab (count_corpus lines) = spec_vocabulary lines.
Proof.
  unfold count_corpus, spec_vocabulary. rewrite foldl_count_line_vocab. simpl.
  set_solver.
Qed.

(** ** The table *)

Lemma foldl_insert_lookup {V} (f : string → V) (l : list string) : ∀ (m : gmap string V) p,
  foldl (λ model prev, <[prev := f prev]> model) m l !! p =
    if decide (p ∈ l) then Some (f p) else m !! p.
Proof.
  induction l as [|k l IH]; intros m p.
  - rewrite decide_False; [done|]. apply not_elem_of_nil.
  - cbn [foldl]. rewrite IH. destruct (decide (p ∈ l)) as [Hin|Hnin].
    + rewrite decide_True; [done|]. by right.
    + destruct (decide (k = p)) as [->|Hne].
      * rewrite lookup_insert_eq, decide_True; [done|]. left.
      * rewrite lookup_insert_ne, decide_False; [done| |done].
        rewrite elem_of_cons. naive_solver.
Qed.

(** The rows that exist, and what each of them is. *)
Lemma bigram_model_lookup lines p :
  bigram_model lines !! p =
    let c := count_corpus lines in
    let next_vocab := vocab c ∪ {[UNKNOWN]} in
    if decide (p ∈ dom (prev_counts c) ∪ {[INIT]} ∪ {[UNKNOWN]})
    then Some (build_row c next_vocab (size next_vocab) p)
    else None.
Proof.
  unfold bigram_model. cbv zeta. rewrite foldl_insert_lookup, lookup_empty.
  destruct (decide (p ∈ dom (prev_counts (count_corpus lines)) ∪ {[INIT]} ∪ {[UNKNOWN]}))
    as [Hin|Hnin].
  - rewrite decide_True; [done|]. by apply elem_of_elements.
  - rewrite decide_False; [done|]. by rewrite elem_of_elements.
Qed.

Lemma row_get_fmap (g : string → Q) (l : list string) x :
  row_get ((λ curr, (curr, g curr)) <$> l) x =
    if decide (x ∈ l) then Some (g x) else None.
Proof.
  induction l as [|k l IH].
  - rewrite decide_False; [done|]. apply not_elem_of_nil.
  - cbn [fmap list_fmap row_get]. destruct (String.eqb x k) eqn:E.
    + apply eqb_true_iff in E as ->. rewrite decide_True; [done|]. left.
    + apply eqb_false_iff in E. rewrite IH.
      destruct (decide (x ∈ l)) as [Hin|Hnin].
      * rewrite decide_True; [done|]. by right.
      * rewrite decide_False; [done|]. rewrite elem_of_cons. naive_solver.
Qed.

(** C1. In the table built by [bigram_model], the entry of a current token
    [c] of the vocabulary (with [UNKNOWN]) in the row of a materialized
    previous token [p] is (count(p,c) + 1) / (totalCount(p) + S), where S is
    the size of the vocabulary with [UNKNOWN] and the counts are those of
    the corpus (0 for a [p] that was never observed). *)
Theorem bigram_model_probability (lines : list string) (p c : string) (row : Row) :
  bigram_model lines !! p = Some row →
  c ∈ spec_vocabulary lines ∪ {[UNKNOWN]} →
  row_get row c =
    Some (inject_Z (Z.of_nat (spec_count (corpus_bigrams lines) p c + 1))
          / inject_Z (Z.of_nat (spec_totalCount (corpus_bigrams lines) p
                                + size (spec_vocabulary lines ∪ {[UNKNOWN]}))))%Q.
Proof.
  intros Hrow Hc.
  rewrite bigram_model_lookup in Hrow. cbv zeta in Hrow.
  case_decide; [|done]. injection Hrow as <-.
  unfold build_row. rewrite row_get_fmap.
  rewrite count_corpus_vocab.
  rewrite decide_True by (by apply elem_of_elements).
  destruct (count_corpus_tallies lines) as (Hb & Hp & _).
  by rewrite Hb, Hp.
Qed.

(** The rows that are materialized: one for every token observed as a
    previous token, one for [INIT] and one for [UNKNOWN]. *)
Lemma bigram_model_dom lines :
  dom (bigram_model lines) =
    list_to_set (corpus_bigrams lines).*1 ∪ {[INIT]} ∪ {[UNKNOWN]}.
Proof.
  apply set_eq. intros p. rewrite elem_of_dom, bigram_model_lookup. cbv zeta.
  destruct (count_corpus_tallies lines) as (_ & _ & <-).
  case_decide; split; done.
Qed.

(** The corpus of the end-to-end example: S = 6, totalCount(the) = 2,
    count(the,cat) = 1 and probability(cat|the) = 0.25. *)
Lemma bigram_model_probability_witness :
  size (spec_vocabulary ex_corpus ∪ {[UNKNOWN]}) = 6%nat
  ∧ spec_totalCount (corpus_bigrams ex_corpus) "the" = 2%nat
  ∧ spec_count (corpus_bigrams ex_corpus) "the" "cat" = 1%nat
  ∧ (_get_prob (bigram_model ex_corpus) "the" "cat" == 1 # 4)%Q.
Proof.
  split; [vm_compute; reflexivity|].
  split; [vm_compute; reflexivity|].
  split; [vm_compute; reflexivity|].
  pose proof (bigram_model_probability ex_corpus "the" "cat"
                (_get_row (bigram_model ex_corpus) "the")) as H.
  unfold _get_prob. rewrite H.
  - vm_compute. reflexivity.
  - vm_compute. reflexivity.
  - apply (bool_decide_unpack _). vm_compute. exact I.
Defined.

(** ** Normalisation *)

Lemma sum_list_fmap_add (f g : string → nat) (l : list string) :
  sum_list_with (λ x, f x + g x)%nat l = (sum_list_with f l + sum_list_with g l)%nat.
Proof. induction l as [|x l IH]; simpl; lia. Qed.

Lemma sum_list_fmap_ext (f g : string → nat) (l : list string) :
  (∀ x, f x = g x) → sum_list_with f l = sum_list_with g l.
Proof. intros H. induction l as [|x l IH]; simpl; [done|]. by rewrite H, IH. Qed.

Lemma sum_list_indicator_notin (b : string * string) p (l : list string) :
  b.2 ∉ l →
  sum_list_with (λ x, if decide (b = (p, x)) then 1 else 0)%nat l = 0%nat.
Proof.
  induction l as [|y l IH]; intros Hnin; simpl; [done|].
  apply not_elem_of_cons in Hnin as [Hne Hnin]. rewrite IH by done.
  rewrite decide_False; [done|]. intros ->. by apply Hne.
Qed.

Lemma sum_list_indicator (b : string * string) p (l : list string) :
  NoDup l → b.2 ∈ l →
  sum_list_with (λ x, if decide (b = (p, x)) then 1 else 0)%nat l =
    (if decide (b.1 = p) then 1 else 0)%nat.
Proof.
  induction 1 as [|y l Hy Hnd IH]; intros Hin.
  - by apply elem_of_nil in Hin.
  - simpl. destruct (decide (b.2 = y)) as [Hby|Hby].
    + rewrite sum_list_indicator_notin by (by rewrite Hby).
      destruct b as [b1 b2]; simpl in *; subst b2.
      destruct (decide (b1 = p)) as [->|Hne].
      * by rewrite decide_True.
      * rewrite decide_False; [done|]. congruence.
    + apply elem_of_cons in Hin as [?|Hin]; [done|].
      rewrite IH by done. rewrite decide_False; [done|].
      intros ->. by apply Hby.
Qed.

(** The counts of the pairs that start with [p], summed over a list of
    distinct tokens that holds every current token, give totalCount(p). *)
Lemma sum_spec_count bs p (l : list string) :
  NoDup l → (∀ b, b ∈ bs → b.2 ∈ l) →
  sum_list_with (spec_count bs p) l = spec_totalCount bs p.
Proof.
  intros Hnd. induction bs as [|b bs IH]; intros Hin.
  - unfold spec_totalCount. simpl. clear. by induction l.
  - rewrite (sum_list_fmap_ext _ _ _ (spec_count_cons b bs p)).
    rewrite sum_list_fmap_add, spec_totalCount_cons.
    rewrite sum_list_indicator; [|done|apply Hin; left].
    rewrite IH; [done|]. intros b' Hb'. apply Hin. by right.
Qed.

Lemma line_bigrams_snd words : (line_bigrams words).*2 = words.
Proof. unfold line_bigrams. apply snd_zip. simpl. lia. Qed.

Lemma corpus_bigrams_snd lines :
  (corpus_bigrams lines).*2 = flat_map line_tokens lines.
Proof.
  unfold corpus_bigrams. induction lines as [|l ls IH]; simpl; [done|].
  by rewrite fmap_app, line_bigrams_snd, IH.
Qed.

Lemma corpus_bigrams_vocabulary lines b :
  b ∈ corpus_bigrams lines → b.2 ∈ spec_vocabulary lines.
Proof.
  intros Hb. unfold spec_vocabulary. apply elem_of_list_to_set.
  rewrite <- corpus_bigrams_snd. apply list_elem_of_fmap. by exists b.
Qed.

Lemma smoothed_pos temp denom : (0 < denom)%nat → (0 < smoothed temp denom)%Q.
Proof.
  intros Hd. unfold smoothed. apply Qlt_shift_div_l.
  - change 0%Q with (inject_Z 0). rewrite <- Zlt_Qlt. lia.
  - rewrite Qmult_0_l. change 0%Q with (inject_Z 0). rewrite <- Zlt_Qlt. lia.
Qed.

Lemma row_sum_smoothed (g : string → nat) (d : nat) (l : list string) :
  (0 < d)%nat →
  (row_sum ((λ x, (x, smoothed (g x) d)) <$> l)
   == inject_Z (Z.of_nat (sum_list_with g l + length l)) / inject_Z (Z.of_nat d))%Q.
Proof.
  intros Hd.
  assert (¬ (inject_Z (Z.of_nat d) == 0)%Q) as Hd0.
  { change 0%Q with (inject_Z 0). rewrite inject_Z_injective. lia. }
  unfold row_sum. induction l as [|x l IH]; simpl.
  - unfold Qdiv. by rewrite Qmult_0_l.
  - fold (row_sum ((λ x, (x, smoothed (g x) d)) <$> l)) in *.
    unfold row_sum in *. rewrite IH. unfold smoothed.
    rewrite !Nat2Z.inj_add, !inject_Z_plus. simpl (Z.of_nat 1).
    rewrite !Nat2Z.inj_succ. unfold Z.succ. rewrite !inject_Z_plus.
    field. exact Hd0.
Qed.

Lemma bigram_model_row_positive (lines : list string) (p : string) (row : Row) :
  bigram_model lines !! p = Some row → Forall (λ kv, (0 < kv.2)%Q) row.
Proof.
  intros Hrow.
  rewrite bigram_model_lookup in Hrow. cbv zeta in Hrow.
  case_decide; [|done]. injection Hrow as <-.
  unfold build_row. apply Forall_fmap, Forall_forall. intros x _. simpl.
  apply smoothed_pos.
  assert (size (vocab (count_corpus lines) ∪ {[UNKNOWN]}) ≠ 0%nat); [|lia].
  intros Hz. apply size_empty_inv in Hz. set_solver.
Qed.

(** C2. Every row of the table built by [bigram_model] is a probability
    distribution: its values sum to 1 (so also within the tolerance 1e-9)
    and every entry is strictly positive. *)
Theorem bigram_model_row_distribution (lines : list string) (p : string) (row : Row) :
  bigram_model lines !! p = Some row →
  (row_sum row == 1)%Q
  ∧ (Qabs (row_sum row - 1) <= 1 # 1000000000)%Q
  ∧ Forall (λ kv, (0 < kv.2)%Q) row.
Proof.
  intros Hrow.
  rewrite bigram_model_lookup in Hrow. cbv zeta in Hrow.
  case_decide; [|done]. injection Hrow as <-.
  set (c := count_corpus lines).
  set (nv := vocab c ∪ {[UNKNOWN]}).
  assert (0 < size nv)%nat as Hsize.
  { assert (size nv ≠ 0%nat); [|lia].
    intros Hz. apply size_empty_inv in Hz. subst nv. set_solver. }
  assert (row_sum (build_row c nv (size nv) p) == 1)%Q as Hsum.
  { unfold build_row.
    rewrite row_sum_smoothed by lia.
    destruct (count_corpus_tallies lines) as (Hb & Hp & _). fold c in Hb, Hp.
    rewrite (sum_list_fmap_ext _ (spec_count (corpus_bigrams lines) p))
      by (intros x; apply Hb).
    rewrite sum_spec_count.
    - rewrite <- Hp. unfold size, set_size. simpl.
      apply Qmult_inv_r.
      change 0%Q with (inject_Z 0). rewrite inject_Z_injective.
      unfold size, set_size in Hsize. simpl in Hsize. lia.
    - apply NoDup_elements.
    - intros b Hb'. apply elem_of_elements. subst nv c.
      rewrite count_corpus_vocab.
      apply corpus_bigrams_vocabulary in Hb'. set_solver. }
  split; [exact Hsum|]. split.
  - rewrite Hsum. by vm_compute.
  - unfold build_row. apply Forall_fmap, Forall_forall. intros x _. simpl.
    apply smoothed_pos. lia.
Qed.

Lemma bigram_model_row_distribution_witness :
  (row_sum (_get_row (bigram_model ex_corpus) "the") == 1)%Q.
Proof.
  apply (bigram_model_row_distribution ex_corpus "the").
  vm_compute. reflexivity.
Defined.

(** ** The passes choose admissible candidates *)

Lemma admissible_spec max_punct pu used tok :
  admissible max_punct pu used tok = true ↔
    tok ≠ INIT
    ∧ (_is_punct tok = true → pu < max_punct)
    ∧ (_is_punct tok = false → tok ∉ used).
Proof.
  unfold admissible. rewrite !andb_true_iff, !negb_true_iff.
  rewrite eqb_false_iff, !andb_false_iff, negb_false_iff, Z.leb_gt.
  rewrite bool_decide_eq_false.
  destruct (_is_punct tok); split; intros; intuition congruence.
Qed.

Lemma first_pass_filter max_punct pu used cands :
  first_pass max_punct pu used cands =
    head (List.filter (λ kv, admissible max_punct pu used kv.1
                             && negb (String.eqb kv.1 UNKNOWN)) cands).
Proof.
  induction cands as [|[tok p] cands IH]; [done|].
  cbn [first_pass List.filter fst]. unfold admissible.
  destruct (String.eqb tok INIT); simpl; [exact IH|].
  destruct (_is_punct tok && (max_punct <=? pu)); simpl; [exact IH|].
  destruct (negb (_is_punct tok) && bool_decide (tok ∈ used)); simpl; [exact IH|].
  destruct (String.eqb tok UNKNOWN); simpl; [exact IH|done].
Qed.

Lemma relaxed_pass_filter max_punct pu used cands :
  relaxed_pass max_punct pu used cands =
    head (List.filter (λ kv, admissible max_punct pu used kv.1) cands).
Proof.
  induction cands as [|[tok p] cands IH]; [done|].
  cbn [relaxed_pass List.filter fst]. unfold admissible.
  destruct (String.eqb tok INIT); simpl; [exact IH|].
  destruct (_is_punct tok && (max_punct <=? pu)); simpl; [exact IH|].
  destruct (negb (_is_punct tok) && bool_decide (tok ∈ used)); simpl; [exact IH|done].
Qed.

Lemma head_filter_Some {A} (f : A → bool) (l : list A) x :
  head (List.filter f l) = Some x → In x l ∧ f x = true.
Proof.
  intros H. apply filter_In.
  destruct (List.filter f l) as [|y l'] eqn:E; [done|].
  injection H as ->. by left.
Qed.

Lemma first_pass_Some max_punct pu used cands tok p :
  first_pass max_punct pu used cands = Some (tok, p) →
  In (tok, p) cands ∧ admissible max_punct pu used tok = true ∧ tok ≠ UNKNOWN.
Proof.
  rewrite first_pass_filter. intros H.
  apply head_filter_Some in H as [Hin H]. simpl in H.
  apply andb_true_iff in H as [Ha Hu]. apply negb_true_iff, eqb_false_iff in Hu.
  done.
Qed.

Lemma relaxed_pass_Some max_punct pu used cands tok p :
  relaxed_pass max_punct pu used cands = Some (tok, p) →
  In (tok, p) cands ∧ admissible max_punct pu used tok = true.
Proof.
  rewrite relaxed_pass_filter. intros H.
  by apply head_filter_Some in H.
Qed.

Lemma lookahead_pass_Some bigram_probs max_punct pu used cand1 :
  ∀ best best_score tok p,
  lookahead_pass bigram_probs max_punct pu used cand1 best best_score = Some (tok, p) →
  best = Some (tok, p)
  ∨ (In (tok, p) cand1 ∧ admissible max_punct pu used tok = true ∧ tok ≠ UNKNOWN).
Proof.
  induction cand1 as [|[tok1 p1] cand1 IH]; intros best best_score tok p H.
  - left. exact H.
  - cbn [lookahead_pass] in H.
    assert (∀ b bs,
      lookahead_pass bigram_probs max_punct pu used cand1 b bs = Some (tok, p) →
      b = Some (tok, p)
      ∨ In (tok, p) ((tok1, p1) :: cand1)
        ∧ admissible max_punct pu used tok = true ∧ tok ≠ UNKNOWN) as Hskip.
    { intros b bs Hb. apply IH in Hb as [Hb|(Hin & Ha & Hu)]; [by left|].
      right. split; [by right|done]. }
    destruct (String.eqb tok1 INIT) eqn:E1; [by eapply Hskip|].
    destruct (_is_punct tok1 && (max_punct <=? pu)) eqn:E2; [by eapply Hskip|].
    destruct (negb (_is_punct tok1) && bool_decide (tok1 ∈ used)) eqn:E3;
      [by eapply Hskip|].
    destruct (String.eqb tok1 UNKNOWN) eqn:E4; [by eapply Hskip|].
    destruct (log_gt _ best_score); [|by eapply Hskip].
    apply Hskip in H as [H|H]; [|by right].
    injection H as <- <-. right. split; [by left|]. split.
    + unfold admissible. by rewrite E1, E2, E3.
    + by apply eqb_false_iff.
Qed.

Lemma greedy_choice_ok bigram_probs max_punct :
  choice_ok max_punct (greedy_choice bigram_probs max_punct).
Proof.
  intros st. unfold greedy_choice.
  destruct (first_pass _ _ _ _) as [[tok p]|] eqn:E1.
  - apply first_pass_Some in E1 as (_ & Ha & Hu). done.
  - destruct (relaxed_pass _ _ _ _) as [[tok p]|] eqn:E2; [|done].
    by apply relaxed_pass_Some in E2 as (_ & Ha).
Qed.

Lemma plus_choice_ok bigram_probs max_punct :
  choice_ok max_punct (plus_choice bigram_probs max_punct).
Proof.
  intros st. unfold plus_choice.
  destruct (lookahead_pass _ _ _ _ _ _ _) as [[tok p]|] eqn:E1.
  - apply lookahead_pass_Some in E1 as [?|(_ & Ha & Hu)]; done.
  - destruct (relaxed_pass _ _ _ _) as [[tok p]|] eqn:E2; [|done].
    by apply relaxed_pass_Some in E2 as (_ & Ha).
Qed.

Lemma greedy_loop_run bigram_probs len max_punct fuel : ∀ st,
  greedy_loop bigram_probs len max_punct fuel st =
    run_loop bigram_probs (greedy_choice bigram_probs max_punct) len fuel st.
Proof.
  induction fuel as [|fuel IH]; intros st; simpl; [done|].
  destruct (_ <? len); [|done]. apply IH.
Qed.

Lemma greedy_trace_run bigram_probs len max_punct fuel : ∀ st,
  greedy_trace bigram_probs len max_punct fuel st =
    run_trace bigram_probs (greedy_choice bigram_probs max_punct) len fuel st.
Proof.
  induction fuel as [|fuel IH]; intros st; simpl; [done|].
  destruct (_ <? len); [|done]. f_equal. apply IH.
Qed.

Lemma plus_loop_run bigram_probs len max_punct fuel : ∀ st,
  plus_loop bigram_probs len max_punct fuel st =
    run_loop bigram_probs (plus_choice bigram_probs max_punct) len fuel st.
Proof.
  induction fuel as [|fuel IH]; intros st; simpl; [done|].
  destruct (_ <? len); [|done]. apply IH.
Qed.

Lemma plus_trace_run bigram_probs len max_punct fuel : ∀ st,
  plus_trace bigram_probs len max_punct fuel st =
    run_trace bigram_probs (plus_choice bigram_probs max_punct) len fuel st.
Proof.
  induction fuel as [|fuel IH]; intros st; simpl; [done|].
  destruct (_ <? len); [|done]. f_equal. apply IH.
Qed.

(** ** The invariant of the loops *)

Lemma punct_count_snoc s w :
  punct_count (s ++ [w]) = (punct_count s + (if _is_punct w then 1 else 0))%nat.
Proof.
  unfold punct_count. rewrite List.filter_app, length_app. simpl.
  by destruct (_is_punct w).
Qed.

Lemma punct_count_le_length s : (punct_count s <= length s)%nat.
Proof. unfold punct_count. apply List.filter_length_le. Qed.

Section run.
Variable bigram_probs : Bigram.
Variable choice : state → origin * string.
Variable init_word : string.
Variables len max_punct : Z.
Hypothesis Hchoice : choice_ok max_punct choice.

Lemma initial_inv logp0 :
  loop_inv init_word max_punct (initial_state init_word logp0) [(Seed, init_word)].
Proof using Type.
  clear Hchoice.
  unfold loop_inv, initial_state, punct_count. simpl.
  split; [done|]. split; [by destruct (_is_punct init_word)|].
  split.
  { intros w Hw Hp. apply list_elem_of_singleton in Hw as ->.
    rewrite Hp. set_solver. }
  split; [destruct (_is_punct init_word); lia|].
  split.
  { intros i j o w Hij Hi Hj _. destruct j as [|j]; [lia|]. done. }
  split; [|done].
  by apply Forall_singleton.
Qed.

Lemma commit_inv st tr :
  loop_inv init_word max_punct st tr →
  loop_inv init_word max_punct (commit bigram_probs st (choice st).2)
    (tr ++ [choice st]).
Proof.
  intros (Hseq & Hpu & Hused & Hbound & Hrep & Htag & Hhead).
  pose proof (Hchoice st) as Hc.
  destruct (choice st) as [o tok]. cbn [snd].
  assert (_is_punct tok = true → punct_used st < max_punct) as Hbudget.
  { intros Hp. destruct o; [done| | |].
    - destruct Hc as [Ha _]. apply admissible_spec in Ha. naive_solver.
    - apply admissible_spec in Hc. naive_solver.
    - subst tok. by rewrite is_punct_UNKNOWN in Hp. }
  assert (_is_punct tok = false → tok ∈ used_nonpunct st → o = AbsoluteFallback)
    as Hfresh.
  { intros Hp Hin. destruct o; [done| | |done].
    - destruct Hc as [Ha _]. apply admissible_spec in Ha. naive_solver.
    - apply admissible_spec in Hc. naive_solver. }
  unfold loop_inv, commit. cbn [seq punct_used used_nonpunct].
  split; [by rewrite fmap_app, Hseq|].
  split.
  { rewrite punct_count_snoc, Hpu. destruct (_is_punct tok); lia. }
  split.
  { intros w Hw Hp. apply elem_of_app in Hw as [Hw|Hw].
    - specialize (Hused w Hw Hp). destruct (_is_punct tok); set_solver.
    - apply list_elem_of_singleton in Hw as ->. rewrite Hp. set_solver. }
  split.
  { destruct (_is_punct tok) eqn:Hp; [|done]. specialize (Hbudget eq_refl). lia. }
  split.
  { intros i j o' w Hij Hi Hj Hp.
    destruct (decide (j < length tr)%nat) as [Hlt|Hge].
    - rewrite lookup_app_l in Hj by done.
      rewrite fmap_app, lookup_app_l in Hi by (rewrite length_fmap; lia).
      exact (Hrep i j o' w Hij Hi Hj Hp).
    - apply lookup_app_Some in Hj as [Hj|[_ Hj]].
      { apply lookup_lt_Some in Hj. lia. }
      destruct (j - length tr)%nat as [|k] eqn:Ek; [|done].
      simpl in Hj. injection Hj as -> ->.
      apply Hfresh; [done|]. apply Hused; [|done].
      rewrite Hseq. apply list_elem_of_lookup. exists i.
      rewrite fmap_app, lookup_app_l in Hi; [done|].
      rewrite length_fmap. lia. }
  split.
  { apply Forall_app. split; [done|]. apply Forall_singleton.
    unfold well_tagged. simpl. destruct o; [done| | |done].
    - destruct Hc as [Ha Hu]. apply admissible_spec in Ha. naive_solver.
    - apply admissible_spec in Hc. naive_solver. }
  destruct tr; [done|]. done.
Qed.

Lemma run_inv fuel : ∀ st tr,
  loop_inv init_word max_punct st tr →
  loop_inv init_word max_punct (run_loop bigram_probs choice len fuel st)
    (tr ++ run_trace bigram_probs choice len fuel st).
Proof.
  induction fuel as [|fuel IH]; intros st tr Hinv; simpl.
  - by rewrite app_nil_r.
  - destruct (_ <? len); [|by rewrite app_nil_r].
    rewrite (cons_middle (choice st)), app_assoc.
    apply IH. by apply commit_inv.
Qed.

(** The loop leaves through its condition: with [fuel] at least the
    number of missing tokens, the sequence ends with [len] tokens. *)
Lemma run_length fuel : ∀ st,
  Z.of_nat (length (seq st)) ≤ len →
  (Z.to_nat len - length (seq st) ≤ fuel)%nat →
  Z.of_nat (length (seq (run_loop bigram_probs choice len fuel st))) = len.
Proof using Type.
  induction fuel as [|fuel IH]; intros st Hle Hfuel; simpl.
  - lia.
  - destruct (Z.ltb_spec (Z.of_nat (length (seq st))) len) as [Hlt|Hge]; [|lia].
    apply IH; simpl; rewrite length_app; simpl; lia.
Qed.

Lemma run_seq_prefix fuel : ∀ st,
  head (seq st) = Some init_word →
  head (seq (run_loop bigram_probs choice len fuel st)) = Some init_word.
Proof using Type.
  induction fuel as [|fuel IH]; intros st Hhd; simpl; [done|].
  destruct (_ <? len); [|done].
  apply IH. simpl. by destruct (seq st).
Qed.
End run.

(** ** The generators *)

Lemma generate_unfold g bigram_probs init_word len :
  generate g bigram_probs init_word len =
    if len <=? 0 then Ok ([], log_zero)
    else
      match initial_logp bigram_probs init_word with
      | ValueError => ValueError
      | Ok logp0 =>
          let choice :=
            match g with
            | Greedy => greedy_choice bigram_probs (len / 5)
            | Lookahead => plus_choice bigram_probs (len / 5)
            end in
          let st := run_loop bigram_probs choice len (Z.to_nat len)
                      (initial_state init_word logp0) in
          Ok (seq st, logp st)
      end.
Proof.
  destruct g; simpl; unfold sequence_generator, sequence_generator_plus;
    destruct (len <=? 0); try done;
    destruct (initial_logp bigram_probs init_word); try done;
    by rewrite ?greedy_loop_run, ?plus_loop_run.
Qed.

Lemma generate_origins_unfold g bigram_probs init_word len :
  generate_origins g bigram_probs init_word len =
    if len <=? 0 then Ok []
    else
      match initial_logp bigram_probs init_word with
      | ValueError => ValueError
      | Ok logp0 =>
          let choice :=
            match g with
            | Greedy => greedy_choice bigram_probs (len / 5)
            | Lookahead => plus_choice bigram_probs (len / 5)
            end in
          Ok ((Seed, init_word)
              :: run_trace bigram_probs choice len (Z.to_nat len)
                   (initial_state init_word logp0))
      end.
Proof.
  destruct g; simpl;
    unfold sequence_generator_origins, sequence_generator_plus_origins;
    destruct (len <=? 0); try done;
    destruct (initial_logp bigram_probs init_word); try done;
    by rewrite ?greedy_trace_run, ?plus_trace_run.
Qed.

Lemma strategy_choice_ok g bigram_probs max_punct :
  choice_ok max_punct
    match g with
    | Greedy => greedy_choice bigram_probs max_punct
    | Lookahead => plus_choice bigram_probs max_punct
    end.
Proof. destruct g; [apply greedy_choice_ok|apply plus_choice_ok]. Qed.

(** A generation of positive length that returns: its trace, the invariant
    at the end, and the length of the sequence. *)
Lemma generate_inv g bigram_probs init_word len s lp :
  generate g bigram_probs init_word len = Ok (s, lp) →
  0 < len →
  ∃ st tr,
    generate_origins g bigram_probs init_word len = Ok tr
    ∧ s = seq st ∧ lp = logp st
    ∧ loop_inv init_word (len / 5) st tr
    ∧ Z.of_nat (length s) = len
    ∧ head s = Some init_word.
Proof.
  rewrite generate_unfold, generate_origins_unfold. intros H Hlen.
  destruct (Z.leb_spec len 0) as [?|_]; [lia|].
  destruct (initial_logp bigram_probs init_word) as [logp0|]; [|done].
  cbv zeta in *. injection H as <- <-.
  eexists _, _. split; [done|]. split; [done|]. split; [done|].
  split; [|split].
  - apply (run_inv _ _ _ _ _ (strategy_choice_ok g bigram_probs (len / 5))
             (Z.to_nat len) (initial_state init_word logp0) [(Seed, init_word)]).
    apply initial_inv.
  - apply run_length; simpl; lia.
  - by apply run_seq_prefix.
Qed.

Lemma generate_nonpositive g bigram_probs init_word len :
  len ≤ 0 → generate g bigram_probs init_word len = Ok ([], log_zero).
Proof.
  intros Hlen. rewrite generate_unfold.
  by destruct (Z.leb_spec len 0) as [_|?]; [|lia].
Qed.

(** Whenever the logarithm of the seed's probability is defined, both
    generators return, and what they return has the requested length and
    starts with the seed. *)
Lemma generate_length g bigram_probs init_word len logp0 :
  0 < len →
  initial_logp bigram_probs init_word = Ok logp0 →
  ∃ s lp, generate g bigram_probs init_word len = Ok (s, lp)
          ∧ Z.of_nat (length s) = len ∧ head s = Some init_word.
Proof.
  intros Hlen Hinit.
  destruct (generate g bigram_probs init_word len) as [[s lp]|] eqn:E.
  - apply generate_inv in E as (st & tr & _ & _ & _ & _ & Hl & Hh); [|done].
    by exists s, lp.
  - rewrite generate_unfold, Hinit in E.
    by destruct (len <=? 0).
Qed.

(** The only failure: a non-empty seed whose probability after [INIT] is
    not positive. *)
Lemma generate_ValueError g bigram_probs init_word len :
  generate g bigram_probs init_word len = ValueError ↔
    0 < len ∧ init_word ≠ "" ∧ (_get_prob bigram_probs INIT init_word <= 0)%Q.
Proof.
  rewrite generate_unfold. unfold initial_logp, math_log.
  destruct (Z.leb_spec len 0) as [Hle|Hlt].
  - split; [done|]. lia.
  - destruct (String.eqb init_word "") eqn:E.
    + apply eqb_true_iff in E. split; [done|]. naive_solver.
    + apply eqb_false_iff in E.
      destruct (Qlt_b 0 _) eqn:Hq.
      * apply Qlt_b_true in Hq. split; [done|].
        intros (_ & _ & Hle). exfalso. by apply (Qlt_not_le _ _ Hq).
      * apply Qlt_b_false in Hq. done.
Qed.

(** C4. The length contract is stated for every table, but with the empty
    table and the seed [a] neither generator returns: the logarithm of the
    seed's probability, 0, is a domain error.  ([generate_length] and
    [generate_nonpositive] give the contract wherever that logarithm is
    defined.) *)
Theorem generate_length_contract_fails (g : strategy) :
  _get_prob ∅ INIT "a" = 0%Q ∧ generate g ∅ "a" 1 = ValueError.
Proof. by destruct g. Qed.

(** C5 as stated fails: the seed is never filtered, so a punctuation seed
    with a length below 5 gives one punctuation token against a budget
    of 0. *)
Lemma punctuation_budget_counterexample :
  (∃ lp, sequence_generator (bigram_model ["wait , what"]) "," 3
         = Ok ([","; "what"; "wait"], lp))
  ∧ (∃ lp, sequence_generator_plus (bigram_model ["wait , what"]) "," 3
           = Ok ([","; "what"; "wait"], lp))
  ∧ _is_punct "," = true
  ∧ ¬ (Z.of_nat (punct_count [","; "what"; "wait"]) ≤ 3 / 5).
Proof.
  split; [eexists; vm_compute; reflexivity|].
  split; [eexists; vm_compute; reflexivity|].
  split; [reflexivity|].
  vm_compute. by intros H.
Qed.

(** C5, amended.  The number of punctuation tokens of a returned sequence
    of requested length N > 0 is at most floor(N/5), or at most 1 when the
    seed itself is punctuation and floor(N/5) is 0. *)
Theorem punctuation_budget (g : strategy) (bigram_probs : Bigram) (init_word : string)
    (len : Z) (s : list string) (lp : logv) :
  generate g bigram_probs init_word len = Ok (s, lp) →
  0 < len →
  Z.of_nat (punct_count s) ≤ Z.max (len / 5) (if _is_punct init_word then 1 else 0).
Proof.
  intros H Hlen.
  apply generate_inv in H as (st & tr & _ & -> & _ & Hinv & _); [|done].
  destruct Hinv as (_ & Hpu & _ & Hbound & _). by rewrite <- Hpu.
Qed.

Lemma punctuation_budget_witness :
  ∃ s lp,
    generate Greedy (bigram_model punct_corpus) "wait" 10 = Ok (s, lp)
    ∧ Z.of_nat (punct_count s) ≤ 2.
Proof.
  eexists _, _. split; [vm_compute; reflexivity|].
  apply (punctuation_budget Greedy (bigram_model punct_corpus) "wait" 10 _
           (Ln (32 # 1137991680))).
  - vm_compute. reflexivity.
  - lia.
Defined.

(** ** [UNKNOWN] *)

Lemma no_repeat_app_l tr tr' : no_repeat (tr ++ tr') → no_repeat tr.
Proof.
  intros Hrep i j o w Hij Hi Hj Hp.
  apply (Hrep i j o w Hij); [|by apply lookup_app_l_Some|done].
  rewrite fmap_app. by apply lookup_app_l_Some.
Qed.

Lemma unknown_by_pass_spec e :
  unknown_by_pass e = true ↔ e.2 = UNKNOWN ∧ (e.1 = FirstPass ∨ e.1 = RelaxedPass).
Proof.
  unfold unknown_by_pass.
  rewrite andb_true_iff, orb_true_iff, eqb_true_iff, !bool_decide_eq_true. done.
Qed.

Lemma no_repeat_unknown_once tr :
  no_repeat tr → (length (List.filter unknown_by_pass tr) ≤ 1)%nat.
Proof.
  induction tr as [|e tr IH] using rev_ind; intros Hrep; [simpl; lia|].
  rewrite List.filter_app, length_app. simpl.
  destruct (unknown_by_pass e) eqn:He; [|simpl; apply no_repeat_app_l in Hrep;
                                          specialize (IH Hrep); lia].
  apply unknown_by_pass_spec in He as [He2 He1].
  destruct (List.filter unknown_by_pass tr) as [|e' l] eqn:Ef; [simpl; lia|].
  exfalso.
  assert (In e' (List.filter unknown_by_pass tr)) as Hin by (rewrite Ef; by left).
  apply filter_In in Hin as [Hin He'].
  apply unknown_by_pass_spec in He' as [He'2 _].
  apply list_elem_of_In, list_elem_of_lookup in Hin as [i Hi].
  destruct e as [o w]. simpl in *. subst w.
  assert (o = AbsoluteFallback) as ->.
  { apply (Hrep i (length tr) o UNKNOWN).
    - by apply lookup_lt_Some in Hi.
    - rewrite fmap_app. apply lookup_app_l_Some.
      rewrite list_lookup_fmap, Hi. simpl. by rewrite He'2.
    - by rewrite list_lookup_middle.
    - apply is_punct_UNKNOWN. }
  by destruct He1.
Qed.

(** ** Logarithms *)

Lemma log_add_NegInf_l b : log_add NegInf b = NegInf.
Proof. reflexivity. Qed.

Lemma log_add_NegInf_r a : log_add a NegInf = NegInf.
Proof. by destruct a. Qed.

Lemma guarded_log_nonpositive p : (p <= 0)%Q → guarded_log p = NegInf.
Proof.
  intros Hp. unfold guarded_log.
  destruct (Qlt_b 0 p) eqn:E; [|done].
  apply Qlt_b_true in E. exfalso. by apply (Qlt_not_le _ _ E).
Qed.

Lemma guarded_log_positive p : (0 < p)%Q → guarded_log p = Ln p.
Proof.
  intros Hp. unfold guarded_log. apply Qlt_b_true in Hp. by rewrite Hp.
Qed.

(** Inside the loop a probability that is not positive is no error: it
    makes the accumulated logarithm minus infinity, and there it stays. *)
Lemma commit_nonpositive bigram_probs st chosen :
  (_get_prob bigram_probs (prev st) chosen <= 0)%Q →
  logp (commit bigram_probs st chosen) = NegInf.
Proof.
  intros Hp. unfold commit. simpl.
  by rewrite guarded_log_nonpositive, log_add_NegInf_r.
Qed.

Lemma commit_NegInf bigram_probs st chosen :
  logp st = NegInf → logp (commit bigram_probs st chosen) = NegInf.
Proof. intros H. unfold commit. simpl. by rewrite H. Qed.

Lemma run_loop_NegInf bigram_probs choice len fuel : ∀ st,
  logp st = NegInf → logp (run_loop bigram_probs choice len fuel st) = NegInf.
Proof.
  induction fuel as [|fuel IH]; intros st H; simpl; [done|].
  destruct (_ <? len); [|done]. by apply IH, commit_NegInf.
Qed.

Lemma zero_step_example (g : strategy) :
  generate g zero_step_table "a" 3 = Ok (["a"; "b"; ""], NegInf).
Proof. by destruct g. Qed.

(** C9. A probability of exactly 0 is meant never to be an error, the seed
    step included.  With a table whose [INIT] row gives the seed
    [a] the probability 0, both generators stop with a domain error of
    [math.log] instead of returning minus infinity. *)
Theorem zero_seed_probability_raises (g : strategy) :
  _get_prob zero_seed_table INIT "a" = 0%Q
  ∧ generate g zero_seed_table "a" 2 = ValueError.
Proof. by destruct g. Qed.

(** C8 as stated fails for a seed that is absent from the vocabulary: its
    initial logarithm is that of the [UNKNOWN] entry of the [INIT] row, here
    ln(1/8), not 0. *)
Lemma initial_log_probability_counterexample :
  ("zebra" ∉ spec_vocabulary ex_corpus ∪ {[UNKNOWN]})
  ∧ (∃ lp, sequence_generator (bigram_model ex_corpus) "zebra" 1 = Ok (["zebra"], lp)
           ∧ log_eq lp (Ln (1 # 8)) ∧ ¬ log_eq lp log_zero)
  ∧ (∃ lp, sequence_generator_plus (bigram_model ex_corpus) "zebra" 1 = Ok (["zebra"], lp)
           ∧ log_eq lp (Ln (1 # 8)) ∧ ¬ log_eq lp log_zero).
Proof.
  split; [apply (bool_decide_unpack _); vm_compute; exact I|].
  split; eexists; (split; [vm_compute; reflexivity|]);
    split; vm_compute; [reflexivity|discriminate|reflexivity|discriminate].
Qed.

(** C8, amended.  For a requested length N > 0 the initial logarithm is 0
    exactly when the seed is the empty string; for every other seed whose
    probability after [INIT] is positive (a seed absent from the vocabulary
    included, through the [UNKNOWN] entry) it is the logarithm of that
    probability.  It is the logarithm the loop starts from, and what is
    returned for N = 1. *)
Theorem initial_log_probability (g : strategy) (bigram_probs : Bigram)
    (init_word : string) (len : Z) :
  0 < len →
  init_word = "" ∨ (0 < _get_prob bigram_probs INIT init_word)%Q →
  let logp0 := if String.eqb init_word ""
               then log_zero
               else Ln (_get_prob bigram_probs INIT init_word) in
  initial_logp bigram_probs init_word = Ok logp0
  ∧ generate g bigram_probs init_word len =
      (let st := run_loop bigram_probs
                   match g with
                   | Greedy => greedy_choice bigram_probs (len / 5)
                   | Lookahead => plus_choice bigram_probs (len / 5)
                   end len (Z.to_nat len) (initial_state init_word logp0) in
       Ok (seq st, logp st))
  ∧ generate g bigram_probs init_word 1 = Ok ([init_word], logp0).
Proof.
  intros Hlen Hseed logp0.
  assert (initial_logp bigram_probs init_word = Ok logp0) as Hinit.
  { unfold initial_logp, logp0, math_log.
    destruct (String.eqb init_word "") eqn:E; [done|].
    destruct Hseed as [->|Hp]; [done|].
    apply Qlt_b_true in Hp. by rewrite Hp. }
  split; [done|]. split.
  - rewrite generate_unfold, Hinit.
    by destruct (Z.leb_spec len 0); [lia|].
  - by rewrite generate_unfold, Hinit.
Qed.

Lemma initial_log_probability_witness :
  generate Greedy (bigram_model ex_corpus) "zebra" 1
  = Ok (["zebra"], Ln (_get_prob (bigram_model ex_corpus) INIT "zebra")).
Proof.
  apply (initial_log_probability Greedy (bigram_model ex_corpus) "zebra" 1).
  - lia.
  - right. vm_compute. reflexivity.
Defined.

(** ** Sorting *)

Lemma insert_desc_perm x l : Permutation (insert_desc x l) (x :: l).
Proof.
  induction l as [|y l IH]; simpl; [done|].
  destruct (Qlt_b x.2 y.2); [|done].
  rewrite IH. apply perm_swap.
Qed.

Lemma sorted_desc_perm row : Permutation (sorted_desc row) row.
Proof.
  unfold sorted_desc. induction row as [|x row IH]; simpl; [done|].
  by rewrite insert_desc_perm, IH.
Qed.

Lemma sorted_desc_In row kv : In kv (sorted_desc row) ↔ In kv row.
Proof.
  split; apply Permutation_in; [|symmetry]; apply sorted_desc_perm.
Qed.

Lemma insert_desc_sorted x l :
  StronglySorted desc l → StronglySorted desc (insert_desc x l).
Proof.
  induction 1 as [|y l Hl IH Hy]; simpl.
  - constructor; [constructor|constructor].
  - destruct (Qlt_b x.2 y.2) eqn:E.
    + apply Qlt_b_true in E. constructor; [done|].
      apply Forall_forall. intros z Hz.
      apply list_elem_of_In, (Permutation_in _ (insert_desc_perm x l)) in Hz.
      destruct Hz as [<-|Hz].
      * unfold desc. by apply Qlt_le_weak.
      * rewrite Forall_forall in Hy. by apply Hy, list_elem_of_In.
    + apply Qlt_b_false in E. constructor; [by constructor|].
      constructor; [done|].
      eapply Forall_impl; [exact Hy|]. intros z Hz. unfold desc in *.
      by eapply Qle_trans.
Qed.

Lemma sorted_desc_sorted row : StronglySorted desc (sorted_desc row).
Proof.
  unfold sorted_desc. induction row as [|x row IH]; simpl; [constructor|].
  by apply insert_desc_sorted.
Qed.

Lemma filter_sorted (f : string * Q → bool) l :
  StronglySorted desc l → StronglySorted desc (List.filter f l).
Proof.
  induction 1 as [|y l Hl IH Hy]; simpl; [constructor|].
  destruct (f y); [|done]. constructor; [done|].
  rewrite Forall_forall in *. intros z Hz.
  apply list_elem_of_In, filter_In in Hz as [Hz _]. by apply Hy, list_elem_of_In.
Qed.

(** The first item that passes a test, in sorted order, has the highest
    value among the items of the row that pass it. *)
Lemma head_filter_sorted_max (f : string * Q → bool) row x :
  head (List.filter f (sorted_desc row)) = Some x →
  In x row ∧ f x = true ∧ ∀ y, In y row → f y = true → (y.2 <= x.2)%Q.
Proof.
  intros Hhd.
  pose proof (filter_sorted f _ (sorted_desc_sorted row)) as Hs.
  destruct (List.filter f (sorted_desc row)) as [|x' l] eqn:E; [done|].
  injection Hhd as ->.
  assert (In x (List.filter f (sorted_desc row))) as Hx by (rewrite E; by left).
  apply filter_In in Hx as [Hx Hfx]. apply (proj1 (sorted_desc_In _ _)) in Hx.
  split; [exact Hx|]. split; [exact Hfx|].
  intros y Hy Hfy.
  assert (In y (x :: l)) as Hin.
  { rewrite <- E. apply filter_In. split; [by apply sorted_desc_In|done]. }
  destruct Hin as [<-|Hin]; [apply Qle_refl|].
  apply StronglySorted_inv in Hs as [_ Hall].
  rewrite Forall_forall in Hall. by apply Hall, list_elem_of_In.
Qed.

Lemma head_filter_None {A} (f : A → bool) (l : list A) :
  head (List.filter f l) = None → ∀ x, In x l → f x = false.
Proof.
  intros H x Hx. destruct (f x) eqn:E; [|done].
  assert (In x (List.filter f l)) as Hin by (by apply filter_In).
  by destruct (List.filter f l).
Qed.

Lemma head_filter_sorted_None (f : string * Q → bool) row :
  head (List.filter f (sorted_desc row)) = None → List.filter f row = [].
Proof.
  intros H. pose proof (head_filter_None _ _ H) as Hnone.
  destruct (List.filter f row) as [|x l] eqn:E; [done|].
  assert (In x (List.filter f row)) as Hx by (rewrite E; by left).
  apply filter_In in Hx as [Hx Hfx].
  apply (proj2 (sorted_desc_In _ _)), Hnone in Hx. congruence.
Qed.

(** ** The absolute fallback *)

(** The absolute fallback is the branch taken when no candidate of the row
    passes the constraints: an empty row is one such case, a row whose
    tokens are all used or over budget is another. *)
Lemma relaxed_pass_None max_punct pu used row :
  relaxed_pass max_punct pu used (sorted_desc row) = None ↔
    ∀ c, In c row → admissible max_punct pu used c.1 = false.
Proof.
  rewrite relaxed_pass_filter. split.
  - intros H c Hc.
    apply (head_filter_None _ _ H c), sorted_desc_In, Hc.
  - intros H.
    destruct (head (List.filter _ (sorted_desc row))) as [c|] eqn:E; [|done].
    apply head_filter_Some in E as [Hin Hc].
    apply (proj1 (sorted_desc_In _ _)), H in Hin. congruence.
Qed.

Lemma absolute_fallback_iff g bigram_probs max_punct st :
  (match g with
   | Greedy => greedy_choice bigram_probs max_punct st
   | Lookahead => plus_choice bigram_probs max_punct st
   end).1 = AbsoluteFallback ↔
    ∀ c, In c (_get_row bigram_probs (prev st)) →
      admissible max_punct (punct_used st) (used_nonpunct st) c.1 = false.
Proof.
  rewrite <- relaxed_pass_None.
  destruct g; unfold greedy_choice, plus_choice.
  - destruct (first_pass _ _ _ _) as [[tok p]|] eqn:E1.
    + apply first_pass_Some in E1 as (Hin & Ha & _).
      split; [done|]. intros Hnone.
      pose proof (proj1 (relaxed_pass_None _ _ _ _) Hnone) as Hn.
      apply (proj1 (sorted_desc_In _ _)), Hn in Hin. simpl in Hin. congruence.
    + by destruct (relaxed_pass _ _ _ _) as [[tok p]|].
  - destruct (lookahead_pass _ _ _ _ _ _ _) as [[tok p]|] eqn:E1.
    + apply lookahead_pass_Some in E1 as [?|(Hin & Ha & _)]; [done|].
      split; [done|]. intros Hnone.
      pose proof (proj1 (relaxed_pass_None _ _ _ _) Hnone) as Hn.
      apply (proj1 (sorted_desc_In _ _)), Hn in Hin. simpl in Hin. congruence.
    + by destruct (relaxed_pass _ _ _ _) as [[tok p]|].
Qed.

Lemma absolute_fallback_nonempty_row :
  greedy_choice (bigram_model ex_corpus) 1 ex_state_exhausted
    = (AbsoluteFallback, UNKNOWN)
  ∧ plus_choice (bigram_model ex_corpus) 1 ex_state_exhausted
    = (AbsoluteFallback, UNKNOWN)
  ∧ length (_get_row (bigram_model ex_corpus) (prev ex_state_exhausted)) = 6%nat.
Proof. vm_compute. done. Qed.

(** ** The absolute fallback on the returned sequence *)

Lemma used_of_snoc s w :
  used_of (s ++ [w]) = if _is_punct w then used_of s else used_of s ∪ {[w]}.
Proof.
  unfold used_of. rewrite List.filter_app, list_to_set_app_L. simpl.
  destruct (_is_punct w); simpl.
  - apply union_empty_r_L.
  - by rewrite union_empty_r_L.
Qed.

Lemma fallback_justified_snoc bigram_probs max_punct tr e :
  fallback_justified bigram_probs max_punct tr →
  (e.1 = AbsoluteFallback → nothing_admissible bigram_probs max_punct tr.*2) →
  fallback_justified bigram_probs max_punct (tr ++ [e]).
Proof.
  intros Htr He j w Hj.
  apply lookup_app_Some in Hj as [Hj|[Hge Hj]].
  - pose proof (lookup_lt_Some _ _ _ Hj) as Hlt.
    rewrite fmap_app, take_app_le by (rewrite length_fmap; lia).
    by apply (Htr j w).
  - destruct (j - length tr)%nat as [|k] eqn:Ek; [|done].
    simpl in Hj. injection Hj as Hj.
    assert (j = length tr) as -> by lia.
    rewrite fmap_app, take_app_length' by (by rewrite length_fmap).
    apply He. by rewrite Hj.
Qed.

Lemma fallback_inv_initial bigram_probs max_punct init_word logp0 :
  fallback_inv bigram_probs max_punct (initial_state init_word logp0)
    [(Seed, init_word)].
Proof.
  unfold fallback_inv, initial_state, punct_count, used_of. simpl.
  split; [done|].
  split; [by destruct (_is_punct init_word)|].
  split.
  { destruct (_is_punct init_word); simpl; [done|]. by rewrite union_empty_r_L. }
  split; [done|].
  intros [|j] w Hj; [done|]. by destruct j.
Qed.

Lemma fallback_inv_commit g bigram_probs max_punct st tr :
  fallback_inv bigram_probs max_punct st tr →
  fallback_inv bigram_probs max_punct
    (commit bigram_probs st (strategy_choice g bigram_probs max_punct st).2)
    (tr ++ [strategy_choice g bigram_probs max_punct st]).
Proof.
  intros (Hseq & Hpu & Hused & Hlast & Hfb).
  pose proof (absolute_fallback_iff g bigram_probs max_punct st) as Hiff.
  assert ((strategy_choice g bigram_probs max_punct st).1 = AbsoluteFallback →
          nothing_admissible bigram_probs max_punct tr.*2) as Hnone.
  { intros Ho. exists (prev st). rewrite <- Hseq. split; [done|].
    rewrite <- Hpu, <- Hused. apply Hiff. by destruct g. }
  destruct (strategy_choice g bigram_probs max_punct st) as [o tok].
  unfold fallback_inv, commit. simpl.
  split; [by rewrite fmap_app, Hseq|].
  split; [rewrite punct_count_snoc, Hpu; destruct (_is_punct tok); lia|].
  split; [by rewrite used_of_snoc, Hused|].
  split; [by rewrite last_snoc|].
  by apply fallback_justified_snoc.
Qed.

Lemma fallback_inv_run g bigram_probs max_punct len fuel : ∀ st tr,
  fallback_inv bigram_probs max_punct st tr →
  fallback_inv bigram_probs max_punct
    (run_loop bigram_probs (strategy_choice g bigram_probs max_punct) len fuel st)
    (tr ++ run_trace bigram_probs (strategy_choice g bigram_probs max_punct) len fuel st).
Proof.
  induction fuel as [|fuel IH]; intros st tr Hinv; simpl.
  - by rewrite app_nil_r.
  - destruct (_ <? len); [|by rewrite app_nil_r].
    rewrite (cons_middle (strategy_choice g bigram_probs max_punct st)), app_assoc.
    apply IH. by apply fallback_inv_commit.
Qed.

(** In the trace of a generation, every token tagged with the absolute
    fallback was emitted when nothing was admissible. *)
Lemma generate_fallbacks g bigram_probs init_word len tr :
  generate_origins g bigram_probs init_word len = Ok tr →
  0 < len →
  fallback_justified bigram_probs (len / 5) tr.
Proof.
  rewrite generate_origins_unfold. intros H Hlen.
  destruct (Z.leb_spec len 0) as [?|_]; [lia|].
  destruct (initial_logp bigram_probs init_word) as [logp0|]; [|done].
  cbv zeta in H. injection H as <-.
  apply (fallback_inv_run g bigram_probs (len / 5) len (Z.to_nat len)
           (initial_state init_word logp0) [(Seed, init_word)]).
  apply fallback_inv_initial.
Qed.

(** C6 as stated fails.  The table built from [ex_corpus] has no empty row,
    yet with the seed [the] and the length 8 both generators return a
    sequence whose last three tokens are [UNKNOWN], which is not
    punctuation: once the five words and [UNKNOWN] are used, no entry of a
    row of six is admissible, and the absolute fallback emits [UNKNOWN]
    again. *)
Lemma no_repetition_counterexample :
  (∃ s lp, sequence_generator (bigram_model ex_corpus) "the" 8 = Ok (s, lp)
           ∧ s !! 5%nat = Some UNKNOWN ∧ s !! 6%nat = Some UNKNOWN
           ∧ s !! 7%nat = Some UNKNOWN)
  ∧ (∃ s lp, sequence_generator_plus (bigram_model ex_corpus) "the" 8 = Ok (s, lp)
             ∧ s !! 5%nat = Some UNKNOWN ∧ s !! 6%nat = Some UNKNOWN
             ∧ s !! 7%nat = Some UNKNOWN)
  ∧ _is_punct UNKNOWN = false
  ∧ forallb (λ kr, negb (Nat.eqb (length kr.2) 0)) (map_to_list (bigram_model ex_corpus))
    = true
  ∧ length (_get_row (bigram_model ex_corpus) UNKNOWN) = 6%nat.
Proof.
  split; [eexists _, _; split; [vm_compute; reflexivity|done]|].
  split; [eexists _, _; split; [vm_compute; reflexivity|done]|].
  split; [reflexivity|]. split; vm_compute; reflexivity.
Qed.

(** C6, amended.  In a returned sequence, a non-punctuation token that
    occurred at an earlier position occurs again only as [UNKNOWN] emitted
    by the absolute fallback, and the absolute fallback is the step at which
    no entry of the row of the previous token is admissible, be the row
    empty or not. *)
Theorem no_repetition (g : strategy) (bigram_probs : Bigram) (init_word : string)
    (len : Z) (s : list string) (lp : logv) :
  generate g bigram_probs init_word len = Ok (s, lp) →
  0 < len →
  ∃ tr,
    generate_origins g bigram_probs init_word len = Ok tr
    ∧ tr.*2 = s
    ∧ ∀ i j w, (i < j)%nat → s !! i = Some w → s !! j = Some w →
        _is_punct w = false →
        w = UNKNOWN
        ∧ tr !! j = Some (AbsoluteFallback, UNKNOWN)
        ∧ nothing_admissible bigram_probs (len / 5) (take j s).
Proof.
  intros H Hlen.
  apply generate_inv in H as (st & tr & Htr & -> & _ & Hinv & _); [|done].
  pose proof (generate_fallbacks _ _ _ _ _ Htr Hlen) as Hfb.
  destruct Hinv as (Hseq & _ & _ & _ & Hrep & Htag & _).
  exists tr. split; [done|]. split; [done|].
  intros i j w Hij Hi Hj Hp. rewrite Hseq in Hi, Hj.
  apply list_lookup_fmap_Some in Hj as ([o w'] & Hw & Hj). simpl in Hw. subst w'.
  pose proof (Hrep i j o w Hij Hi Hj Hp) as ->.
  rewrite Forall_forall in Htag.
  assert ((AbsoluteFallback, w) ∈ tr) as Hin by (by eapply list_elem_of_lookup_2).
  apply Htag in Hin. unfold well_tagged in Hin. simpl in Hin. subst w.
  split; [done|]. split; [done|]. rewrite Hseq. by apply (Hfb j UNKNOWN).
Qed.

Lemma no_repetition_witness :
  ∃ s lp tr,
    generate Lookahead (bigram_model ex_corpus) "the" 8 = Ok (s, lp)
    ∧ generate_origins Lookahead (bigram_model ex_corpus) "the" 8 = Ok tr
    ∧ s !! 5%nat = Some UNKNOWN ∧ s !! 6%nat = Some UNKNOWN
    ∧ tr !! 6%nat = Some (AbsoluteFallback, UNKNOWN)
    ∧ nothing_admissible (bigram_model ex_corpus) (8 / 5) (take 6 s).
Proof.
  eexists _, _, _. split; [vm_compute; reflexivity|].
  split; [vm_compute; reflexivity|].
  split; [reflexivity|]. split; [reflexivity|].
  destruct (no_repetition Lookahead (bigram_model ex_corpus) "the" 8
              ["the"; "cat"; "sat"; "dog"; "ran"; ""; ""; ""] (Ln (24 # 4064256)))
    as (tr & Htr & _ & Hrep).
  - vm_compute. reflexivity.
  - lia.
  - destruct (Hrep 5%nat 6%nat UNKNOWN) as (_ & Hj & Hnone); [lia|done|done|done|].
    vm_compute in Htr. injection Htr as <-. split; [exact Hj|exact Hnone].
Defined.

(** C10 as stated fails on the same ground.  The table built from
    [punct_corpus] has no empty row; with the seed [wait] and the length 10
    the relaxed pass emits [UNKNOWN] at position 6, and the absolute
    fallback emits it again at positions 7 to 9, from the row of [UNKNOWN],
    which has seven entries. *)
Lemma unknown_chosen_at_most_once_counterexample :
  sequence_generator_origins (bigram_model punct_corpus) "wait" 10
  = Ok [(Seed, "wait"); (FirstPass, ","); (FirstPass, "what"); (FirstPass, "!");
        (FirstPass, "no"); (FirstPass, "yes"); (RelaxedPass, UNKNOWN);
        (AbsoluteFallback, UNKNOWN); (AbsoluteFallback, UNKNOWN);
        (AbsoluteFallback, UNKNOWN)]
  ∧ sequence_generator_plus_origins (bigram_model punct_corpus) "wait" 10
    = Ok [(Seed, "wait"); (FirstPass, ","); (FirstPass, "what"); (FirstPass, "!");
          (FirstPass, "no"); (FirstPass, "yes"); (RelaxedPass, UNKNOWN);
          (AbsoluteFallback, UNKNOWN); (AbsoluteFallback, UNKNOWN);
          (AbsoluteFallback, UNKNOWN)]
  ∧ (∃ lp, sequence_generator (bigram_model punct_corpus) "wait" 10
           = Ok (["wait"; ","; "what"; "!"; "no"; "yes"; ""; ""; ""; ""], lp))
  ∧ (∃ lp, sequence_generator_plus (bigram_model punct_corpus) "wait" 10
           = Ok (["wait"; ","; "what"; "!"; "no"; "yes"; ""; ""; ""; ""], lp))
  ∧ forallb (λ kr, negb (Nat.eqb (length kr.2) 0))
            (map_to_list (bigram_model punct_corpus)) = true
  ∧ length (_get_row (bigram_model punct_corpus) UNKNOWN) = 7%nat.
Proof.
  split; [vm_compute; reflexivity|]. split; [vm_compute; reflexivity|].
  split; [eexists; vm_compute; reflexivity|].
  split; [eexists; vm_compute; reflexivity|].
  split; vm_compute; reflexivity.
Qed.

(** C10, amended.  [UNKNOWN] is not punctuation; emitting it, as the seed or
    in the loop, adds it to the set of used non-punctuation tokens and
    leaves the punctuation count as it is.  So in a returned sequence the
    two selection passes choose [UNKNOWN] at most once (the first pass never
    does), and once [UNKNOWN] has occurred every later [UNKNOWN] comes from
    the absolute fallback: the step at which no entry of the row of the
    previous token is admissible, be the row empty or not. *)
Theorem unknown_chosen_at_most_once (g : strategy) (bigram_probs : Bigram)
    (init_word : string) (len : Z) (s : list string) (lp : logv) :
  generate g bigram_probs init_word len = Ok (s, lp) →
  0 < len →
  _is_punct UNKNOWN = false
  ∧ (∀ st, used_nonpunct (commit bigram_probs st UNKNOWN) = used_nonpunct st ∪ {[UNKNOWN]}
           ∧ punct_used (commit bigram_probs st UNKNOWN) = punct_used st)
  ∧ (∀ logp0, used_nonpunct (initial_state UNKNOWN logp0) = {[UNKNOWN]}
              ∧ punct_used (initial_state UNKNOWN logp0) = 0)
  ∧ ∃ tr,
      generate_origins g bigram_probs init_word len = Ok tr
      ∧ tr.*2 = s
      ∧ (length (List.filter unknown_by_pass tr) ≤ 1)%nat
      ∧ ((FirstPass, UNKNOWN) ∉ tr)
      ∧ ∀ i j o, (i < j)%nat → s !! i = Some UNKNOWN → tr !! j = Some (o, UNKNOWN) →
          o = AbsoluteFallback
          ∧ nothing_admissible bigram_probs (len / 5) (take j s).
Proof.
  intros H Hlen.
  split; [reflexivity|]. split; [done|]. split; [done|].
  apply generate_inv in H as (st & tr & Htr & -> & _ & Hinv & _); [|done].
  pose proof (generate_fallbacks _ _ _ _ _ Htr Hlen) as Hfb.
  destruct Hinv as (Hseq & _ & _ & _ & Hrep & Htag & _).
  exists tr. split; [done|]. split; [done|].
  split; [by apply no_repeat_unknown_once|]. split.
  - intros Hin. rewrite Forall_forall in Htag. apply Htag in Hin.
    unfold well_tagged in Hin. simpl in Hin. by destruct Hin.
  - intros i j o Hij Hi Hj. rewrite Hseq in Hi.
    assert (o = AbsoluteFallback) as ->.
    { apply (Hrep i j o UNKNOWN Hij Hi Hj). apply is_punct_UNKNOWN. }
    split; [done|]. rewrite Hseq. by apply (Hfb j UNKNOWN).
Qed.

Lemma unknown_chosen_at_most_once_witness :
  ∃ s lp tr,
    generate Greedy (bigram_model punct_corpus) "wait" 10 = Ok (s, lp)
    ∧ generate_origins Greedy (bigram_model punct_corpus) "wait" 10 = Ok tr
    ∧ tr !! 6%nat = Some (RelaxedPass, UNKNOWN)
    ∧ length (List.filter unknown_by_pass tr) = 1%nat
    ∧ ((FirstPass, UNKNOWN) ∉ tr)
    ∧ nothing_admissible (bigram_model punct_corpus) (10 / 5) (take 7 s).
Proof.
  eexists _, _, _. split; [vm_compute; reflexivity|].
  split; [vm_compute; reflexivity|].
  split; [reflexivity|]. split; [reflexivity|].
  destruct (unknown_chosen_at_most_once Greedy (bigram_model punct_corpus) "wait" 10
              ["wait"; ","; "what"; "!"; "no"; "yes"; ""; ""; ""; ""]
              (Ln (32 # 1137991680)))
    as (_ & _ & _ & tr & Htr & _ & _ & Hfirst & Hlater).
  - vm_compute. reflexivity.
  - lia.
  - vm_compute in Htr. injection Htr as <-. split; [exact Hfirst|].
    by destruct (Hlater 6%nat 7%nat AbsoluteFallback) as [_ Hnone]; [lia|..].
Defined.

(** ** The order on logarithms *)

Lemma log_le_refl a : log_le a a.
Proof. destruct a; simpl; [done|apply Qle_refl]. Qed.

Lemma log_le_trans a b c : log_le a b → log_le b c → log_le a c.
Proof.
  destruct a, b, c; simpl; try done. apply Qle_trans.
Qed.

Lemma log_gt_false a b : log_gt a b = false ↔ log_le a b.
Proof.
  destruct a, b; simpl; [by split..|].
  apply Qlt_b_false.
Qed.

Lemma log_gt_true a b : log_gt a b = true → log_le b a.
Proof.
  destruct a, b; simpl; try done.
  intros H. by apply Qlt_le_weak, Qlt_b_true.
Qed.

Lemma log_eq_refl a : log_eq a a.
Proof. destruct a; simpl; [done|reflexivity]. Qed.

Lemma log_le_proper a a' b b' :
  log_eq a a' → log_eq b b' → log_le a b → log_le a' b'.
Proof.
  destruct a, a', b, b'; simpl; try done.
  intros Ha Hb. by rewrite Ha, Hb.
Qed.

Lemma log_add_proper a a' b b' :
  log_eq a a' → log_eq b b' → log_eq (log_add a b) (log_add a' b').
Proof.
  destruct a, a', b, b'; simpl; try done.
  intros Ha Hb. by rewrite Ha, Hb.
Qed.

(** ** The highest probability *)

Lemma max_prob_ge p l q : In q (p :: l) → (q <= max_prob p l)%Q.
Proof.
  unfold max_prob. induction l as [|x l IH]; simpl.
  - intros [<-|[]]. apply Qle_refl.
  - intros [Hq|[Hq|Hq]].
    + specialize (IH (or_introl Hq)).
      destruct (Qlt_b _ x) eqn:E; [|done].
      apply Qlt_b_true in E. eapply Qle_trans; [exact IH|by apply Qlt_le_weak].
    + subst q. destruct (Qlt_b _ x) eqn:E; [apply Qle_refl|].
      by apply Qlt_b_false in E.
    + specialize (IH (or_intror Hq)).
      destruct (Qlt_b _ x) eqn:E; [|done].
      apply Qlt_b_true in E. eapply Qle_trans; [exact IH|by apply Qlt_le_weak].
Qed.

Lemma max_prob_In p l : In (max_prob p l) (p :: l).
Proof.
  unfold max_prob. induction l as [|x l IH]; simpl; [by left|].
  destruct (Qlt_b _ x); [right; by left|].
  destruct IH as [IH|IH]; [by left|right; by right].
Qed.

(** ** Positive tables *)

Lemma table_positive_row bigram_probs prev kv :
  table_positiveb bigram_probs = true →
  In kv (_get_row bigram_probs prev) → (0 < kv.2)%Q.
Proof.
  unfold table_positiveb. rewrite forallb_forall. intros Hpos Hin.
  assert (∀ k row, bigram_probs !! k = Some row → In kv row → (0 < kv.2)%Q) as Hrow.
  { intros k row Hk Hkv.
    apply elem_of_map_to_list, list_elem_of_In, Hpos in Hk. simpl in Hk.
    rewrite forallb_forall in Hk. by apply Qlt_b_true, Hk. }
  unfold _get_row in Hin.
  destruct (bigram_probs !! prev) as [row|] eqn:E; [by eapply Hrow|].
  destruct (bigram_probs !! UNKNOWN) as [row|] eqn:E'; [by eapply Hrow|done].
Qed.

Lemma bigram_model_positive lines : table_positiveb (bigram_model lines) = true.
Proof.
  unfold table_positiveb. apply forallb_forall. intros [k row] Hin.
  apply list_elem_of_In, elem_of_map_to_list in Hin.
  apply bigram_model_row_positive in Hin.
  simpl. apply forallb_forall. intros kv Hkv.
  rewrite Forall_forall in Hin. by apply Qlt_b_true, Hin, list_elem_of_In.
Qed.

(** ** The lookahead score *)

Lemma best_log_next_filter max_punct pu used cand2 :
  best_log_next max_punct pu used cand2 =
    match head (List.filter (λ kv, admissible max_punct pu used kv.1) cand2) with
    | Some (_, p23) => guarded_log p23
    | None => NegInf
    end.
Proof.
  induction cand2 as [|[tok p] cand2 IH]; [done|].
  cbn [best_log_next List.filter fst]. unfold admissible.
  destruct (String.eqb tok INIT); simpl; [exact IH|].
  destruct (_is_punct tok && (max_punct <=? pu)); simpl; [exact IH|].
  destruct (negb (_is_punct tok) && bool_decide (tok ∈ used)); simpl; [exact IH|done].
Qed.

Lemma hyp_state_eq pu (used : gset string) tok :
  pu + (if _is_punct tok then 1 else 0) = hyp_punct_used pu tok
  ∧ used ∪ (if negb (_is_punct tok) then {[tok]} else ∅) = hyp_used_nonpunct used tok.
Proof.
  unfold hyp_punct_used, hyp_used_nonpunct.
  destruct (_is_punct tok); simpl; split; [done| |lia|done].
  apply union_empty_r_L.
Qed.

(** In a table of positive probabilities the score computed by the loop is
    the score of the specification. *)
Lemma lookahead_score_spec bigram_probs max_punct pu used tok p12 :
  table_positiveb bigram_probs = true →
  (0 < p12)%Q →
  log_eq (lookahead_score bigram_probs max_punct pu used tok p12)
         (spec_score bigram_probs max_punct pu used tok p12).
Proof.
  intros Hpos Hp12. unfold lookahead_score, spec_score. cbv zeta.
  rewrite (guarded_log_positive _ Hp12).
  apply log_add_proper; [apply log_eq_refl|].
  destruct (hyp_state_eq pu used tok) as [-> ->].
  rewrite best_log_next_filter. unfold spec_bestNextLog, continuations.
  set (f := λ kv : string * Q,
         admissible max_punct (hyp_punct_used pu tok) (hyp_used_nonpunct used tok) kv.1).
  destruct (head (List.filter f (sorted_desc (_get_row bigram_probs tok))))
    as [[tok2 p23]|] eqn:E.
  - apply head_filter_sorted_max in E as (Hin & Hf & Hmax).
    rewrite guarded_log_positive
      by (apply (table_positive_row bigram_probs tok (tok2, p23) Hpos Hin)).
    simpl.
    assert (In (tok2, p23) (List.filter f (_get_row bigram_probs tok))) as Hin'
      by (by apply filter_In).
    destruct (List.filter f (_get_row bigram_probs tok)) as [|[k p] rest] eqn:Ef;
      [done|].
    pose proof (max_prob_In p rest.*2) as Hm.
    change (In (max_prob p rest.*2) ((k, p) :: rest).*2) in Hm.
    apply in_map_iff in Hm as (y & Hy & Hyin).
    rewrite <- Ef in Hyin. apply filter_In in Hyin as [Hyin Hfy].
    assert (0 < max_prob p rest.*2)%Q as Hmpos.
    { rewrite <- Hy. by apply (table_positive_row bigram_probs tok y). }
    rewrite (guarded_log_positive _ Hmpos). simpl.
    apply Qle_antisym.
    + apply max_prob_ge. change (In (tok2, p23).2 ((k, p) :: rest).*2).
      by apply in_map.
    + rewrite <- Hy. by apply (Hmax y).
  - apply head_filter_sorted_None in E. rewrite E. simpl. reflexivity.
Qed.

Lemma lookahead_score_finite bigram_probs max_punct pu used tok p12 :
  (0 < p12)%Q →
  lookahead_score bigram_probs max_punct pu used tok p12 ≠ NegInf.
Proof.
  intros Hp12. unfold lookahead_score. cbv zeta.
  rewrite (guarded_log_positive _ Hp12).
  by destruct (best_log_next _ _ _ _).
Qed.

(** The first loop of the lookahead generator keeps a candidate of highest
    score: [best_score] is the score of [best], or minus infinity before any
    candidate was kept. *)
Lemma lookahead_pass_max bigram_probs max_punct pu used cand1 :
  let sc := λ c : string * Q,
              lookahead_score bigram_probs max_punct pu used c.1 c.2 in
  ∀ best best_score,
    match best with None => best_score = NegInf | Some b => best_score = sc b end →
    match lookahead_pass bigram_probs max_punct pu used cand1 best best_score with
    | None =>
        best = None
        ∧ ∀ c, In c cand1 → first_step_candidate max_punct pu used c = true →
            sc c = NegInf
    | Some b' =>
        (Some b' = best ∨ (In b' cand1 ∧ first_step_candidate max_punct pu used b' = true))
        ∧ log_le best_score (sc b')
        ∧ ∀ c, In c cand1 → first_step_candidate max_punct pu used c = true →
            log_le (sc c) (sc b')
    end.
Proof.
  intros sc. induction cand1 as [|[tok p12] cand1 IH]; intros best bs Hbest.
  - simpl. destruct best as [b|]; [|done].
    split; [by left|]. split; [rewrite Hbest; apply log_le_refl|done].
  - cbn [lookahead_pass].
    assert (first_step_candidate max_punct pu used (tok, p12) = false →
            match lookahead_pass bigram_probs max_punct pu used cand1 best bs with
            | None =>
                best = None
                ∧ ∀ c, In c ((tok, p12) :: cand1) →
                    first_step_candidate max_punct pu used c = true → sc c = NegInf
            | Some b' =>
                (Some b' = best
                 ∨ (In b' ((tok, p12) :: cand1)
                    ∧ first_step_candidate max_punct pu used b' = true))
                ∧ log_le bs (sc b')
                ∧ ∀ c, In c ((tok, p12) :: cand1) →
                    first_step_candidate max_punct pu used c = true →
                    log_le (sc c) (sc b')
            end) as Hskip.
    { intros Hno. specialize (IH best bs Hbest).
      destruct (lookahead_pass _ _ _ _ cand1 best bs) as [b'|].
      - destruct IH as (Hb' & Hle & Hall). split; [|split; [done|]].
        + destruct Hb' as [?|[? ?]]; [by left|right; split; [by right|done]].
        + intros c [<-|Hc] Hfc; [congruence|by apply Hall].
      - destruct IH as (Hb & Hall). split; [done|].
        intros c [<-|Hc] Hfc; [congruence|by apply Hall]. }
    unfold first_step_candidate, admissible in Hskip. cbn [fst] in Hskip.
    destruct (String.eqb tok INIT) eqn:E1; [by apply Hskip|].
    destruct (_is_punct tok && (max_punct <=? pu)) eqn:E2; [by apply Hskip|].
    destruct (negb (_is_punct tok) && bool_decide (tok ∈ used)) eqn:E3;
      [by apply Hskip|].
    destruct (String.eqb tok UNKNOWN) eqn:E4; [by apply Hskip|].
    clear Hskip.
    assert (first_step_candidate max_punct pu used (tok, p12) = true) as Hcand.
    { unfold first_step_candidate, admissible. cbn [fst]. by rewrite E1, E2, E3, E4. }
    change (lookahead_score bigram_probs max_punct pu used tok p12)
      with (sc (tok, p12)).
    destruct (log_gt (sc (tok, p12)) bs) eqn:Hgt.
    + apply log_gt_true in Hgt.
      specialize (IH (Some (tok, p12)) (sc (tok, p12)) eq_refl).
      destruct (lookahead_pass _ _ _ _ cand1 _ _) as [b'|]; [|by destruct IH].
      destruct IH as (Hb' & Hle & Hall). split; [|split].
      * right. destruct Hb' as [[= ->]|[? ?]]; [split; [by left|done]|].
        split; [by right|done].
      * by eapply log_le_trans.
      * intros c [<-|Hc] Hfc; [done|by apply Hall].
    + apply log_gt_false in Hgt.
      specialize (IH best bs Hbest).
      destruct (lookahead_pass _ _ _ _ cand1 best bs) as [b'|].
      * destruct IH as (Hb' & Hle & Hall). split; [|split; [done|]].
        -- destruct Hb' as [?|[? ?]]; [by left|right; split; [by right|done]].
        -- intros c [<-|Hc] Hfc; [by eapply log_le_trans|by apply Hall].
      * destruct IH as (-> & Hall). split; [done|].
        intros c [<-|Hc] Hfc; [|by apply Hall].
        subst bs. by destruct (sc (tok, p12)).
Qed.

(** ** The lookahead pass over any arithmetic *)

Lemma exact_arith_laws : arith_laws exact_arith.
Proof.
  split; simpl.
  - intros [|x]; simpl; [done|]. apply Qlt_b_false, Qle_refl.
  - intros a b H. by apply log_gt_false, log_gt_true.
  - intros a b c H1 H2. apply log_gt_false.
    eapply log_le_trans; by apply log_gt_false.
  - done.
  - done.
  - done.
  - done.
  - done.
Qed.

Lemma best_log_next_exact max_punct pu used cand2 :
  best_log_next_in exact_arith max_punct pu used cand2
  = best_log_next max_punct pu used cand2.
Proof.
  induction cand2 as [|[tok p] cand2 IH]; [done|].
  cbn [best_log_next_in best_log_next]. by rewrite IH.
Qed.

Lemma lookahead_score_exact bigram_probs max_punct pu used tok p12 :
  lookahead_score_in exact_arith bigram_probs max_punct pu used tok p12
  = lookahead_score bigram_probs max_punct pu used tok p12.
Proof.
  unfold lookahead_score_in, lookahead_score. cbv zeta.
  by rewrite best_log_next_exact.
Qed.

Lemma lookahead_pass_exact bigram_probs max_punct pu used cand1 : ∀ best best_score,
  lookahead_pass_in exact_arith bigram_probs max_punct pu used cand1 best best_score
  = lookahead_pass bigram_probs max_punct pu used cand1 best best_score.
Proof.
  induction cand1 as [|[tok p12] cand1 IH]; intros best bs; [done|].
  cbn [lookahead_pass_in lookahead_pass].
  by rewrite lookahead_score_exact, !IH.
Qed.

(** The generator of this development is the lookahead generator over the
    exact logarithms. *)
Lemma plus_choice_exact bigram_probs max_punct st :
  plus_choice_in exact_arith bigram_probs max_punct st
  = plus_choice bigram_probs max_punct st.
Proof.
  unfold plus_choice_in, plus_choice. cbv zeta.
  by rewrite lookahead_pass_exact.
Qed.

(** The head of a sorted row is its entry of highest probability, the
    first of them in the order of the row; filtering commutes with the
    stable sort. *)
Lemma head_insert_desc x l :
  head (insert_desc x l) =
    match head l with
    | Some y => if Qlt_b x.2 y.2 then Some y else Some x
    | None => Some x
    end.
Proof. destruct l as [|y l]; simpl; [done|]. by destruct (Qlt_b x.2 y.2). Qed.

Lemma head_sorted_desc l : head (sorted_desc l) = best_entry l.
Proof.
  unfold sorted_desc, best_entry.
  induction l as [|x l IH]; simpl; [done|]. by rewrite head_insert_desc, IH.
Qed.

Lemma insert_desc_front x l :
  Forall (λ z, (z.2 <= x.2)%Q) l → insert_desc x l = x :: l.
Proof.
  destruct l as [|y l]; simpl; [done|].
  intros H. apply Forall_cons in H as [Hy _].
  apply Qlt_b_false in Hy. by rewrite Hy.
Qed.

Lemma filter_insert_desc (f : string * Q → bool) x l :
  StronglySorted desc l →
  List.filter f (insert_desc x l) =
    if f x then insert_desc x (List.filter f l) else List.filter f l.
Proof.
  induction 1 as [|y l Hl IH Hy]; [simpl; by destruct (f x)|].
  cbn [insert_desc].
  destruct (Qlt_b x.2 y.2) eqn:E.
  - simpl. rewrite IH.
    destruct (f y) eqn:Ey, (f x) eqn:Ex; simpl; try done. by rewrite E.
  - apply Qlt_b_false in E.
    change (List.filter f (x :: y :: l))
      with (if f x then x :: List.filter f (y :: l) else List.filter f (y :: l)).
    destruct (f x) eqn:Ex; [|done].
    symmetry. apply insert_desc_front, Forall_forall.
    intros z Hz. apply list_elem_of_In, filter_In in Hz as [[<-|Hz] _]; [done|].
    rewrite Forall_forall in Hy. apply list_elem_of_In, Hy in Hz.
    unfold desc in Hz. by eapply Qle_trans.
Qed.

Lemma filter_sorted_desc (f : string * Q → bool) row :
  List.filter f (sorted_desc row) = sorted_desc (List.filter f row).
Proof.
  induction row as [|x row IH]; [done|].
  change (sorted_desc (x :: row)) with (insert_desc x (sorted_desc row)).
  rewrite filter_insert_desc by apply sorted_desc_sorted.
  rewrite IH. simpl. by destruct (f x).
Qed.

Lemma best_entry_max l e :
  best_entry l = Some e → In e l ∧ ∀ c, In c l → (c.2 <= e.2)%Q.
Proof.
  rewrite <- head_sorted_desc. intros Hhd.
  pose proof (sorted_desc_sorted l) as Hs.
  assert (∀ c, In c l → In c (sorted_desc l)) as Hin
    by (intros c; apply sorted_desc_In).
  destruct (sorted_desc l) as [|e' s] eqn:E; [done|]. injection Hhd as ->.
  split; [apply sorted_desc_In; rewrite E; by left|].
  intros c Hc. apply Hin in Hc as [<-|Hc]; [apply Qle_refl|].
  apply StronglySorted_inv in Hs as [_ Hall].
  rewrite Forall_forall in Hall. by apply Hall, list_elem_of_In.
Qed.

Lemma best_log_next_in_filter A max_punct pu used cand2 :
  best_log_next_in A max_punct pu used cand2 =
    match head (List.filter (λ kv, admissible max_punct pu used kv.1) cand2) with
    | Some (_, p23) => guarded_log_in A p23
    | None => a_neg_inf A
    end.
Proof.
  induction cand2 as [|[tok p] cand2 IH]; [done|].
  cbn [best_log_next_in List.filter fst]. unfold admissible.
  destruct (String.eqb tok INIT); simpl; [exact IH|].
  destruct (_is_punct tok && (max_punct <=? pu)); simpl; [exact IH|].
  destruct (negb (_is_punct tok) && bool_decide (tok ∈ used)); simpl; [exact IH|done].
Qed.

(** The score the loop computes, in closed form. *)
Lemma lookahead_score_in_computed A bigram_probs max_punct pu used tok p12 :
  arith_laws A →
  lookahead_score_in A bigram_probs max_punct pu used tok p12
  = computed_score A bigram_probs max_punct pu used tok p12.
Proof.
  intros HA.
  unfold lookahead_score_in, computed_score, computed_bestNextLog, continuations.
  cbv zeta. f_equal.
  destruct (hyp_state_eq pu used tok) as [-> ->].
  rewrite best_log_next_in_filter, filter_sorted_desc, head_sorted_desc.
  destruct (best_entry _) as [[tok2 p23]|]; [|by rewrite (neg_inf_recognised A HA)].
  unfold guarded_log_in. destruct (Qlt_b 0 p23) eqn:E.
  - apply Qlt_b_true in E. by rewrite (log_not_neg_inf A HA).
  - by rewrite (neg_inf_recognised A HA).
Qed.

(** A score is above minus infinity exactly when the probability of the
    candidate is positive. *)
Lemma computed_score_above A bigram_probs max_punct pu used tok p12 :
  arith_laws A →
  a_gt A (computed_score A bigram_probs max_punct pu used tok p12) (a_neg_inf A)
  = Qlt_b 0 p12.
Proof.
  intros HA. unfold computed_score, guarded_log_in, computed_bestNextLog.
  destruct (Qlt_b 0 p12) eqn:E; [|by apply add_neg_inf].
  apply Qlt_b_true in E.
  destruct (best_entry _) as [[tok2 p23]|]; [|by apply add_log_zero].
  destruct (Qlt_b 0 p23) eqn:E2; [|by apply add_log_zero].
  apply Qlt_b_true in E2. by apply add_log_log.
Qed.

(** The first loop keeps a candidate of highest score, among those whose
    score is above minus infinity. *)
Lemma lookahead_pass_in_max A bigram_probs max_punct pu used cand1 :
  arith_laws A →
  let sc := λ c : string * Q,
              lookahead_score_in A bigram_probs max_punct pu used c.1 c.2 in
  ∀ best best_score,
    match best with
    | None => best_score = a_neg_inf A
    | Some b => best_score = sc b ∧ a_gt A (sc b) (a_neg_inf A) = true
    end →
    match lookahead_pass_in A bigram_probs max_punct pu used cand1 best best_score with
    | None =>
        best = None
        ∧ ∀ c, In c cand1 → first_step_candidate max_punct pu used c = true →
            a_gt A (sc c) (a_neg_inf A) = false
    | Some b' =>
        (Some b' = best ∨ (In b' cand1 ∧ first_step_candidate max_punct pu used b' = true))
        ∧ a_gt A best_score (sc b') = false
        ∧ a_gt A (sc b') (a_neg_inf A) = true
        ∧ ∀ c, In c cand1 → first_step_candidate max_punct pu used c = true →
            a_gt A (sc c) (sc b') = false
    end.
Proof.
  intros HA sc. induction cand1 as [|[tok p12] cand1 IH]; intros best bs Hbest.
  - simpl. destruct best as [b|]; [|done]. destruct Hbest as [-> Hb].
    split; [by left|]. split; [by apply gt_irrefl|]. done.
  - cbn [lookahead_pass_in].
    assert (first_step_candidate max_punct pu used (tok, p12) = false →
            match lookahead_pass_in A bigram_probs max_punct pu used cand1 best bs with
            | None =>
                best = None
                ∧ ∀ c, In c ((tok, p12) :: cand1) →
                    first_step_candidate max_punct pu used c = true →
                    a_gt A (sc c) (a_neg_inf A) = false
            | Some b' =>
                (Some b' = best
                 ∨ (In b' ((tok, p12) :: cand1)
                    ∧ first_step_candidate max_punct pu used b' = true))
                ∧ a_gt A bs (sc b') = false
                ∧ a_gt A (sc b') (a_neg_inf A) = true
                ∧ ∀ c, In c ((tok, p12) :: cand1) →
                    first_step_candidate max_punct pu used c = true →
                    a_gt A (sc c) (sc b') = false
            end) as Hskip.
    { intros Hno. specialize (IH best bs Hbest).
      destruct (lookahead_pass_in _ _ _ _ _ cand1 best bs) as [b'|].
      - destruct IH as (Hb' & Hle & Hfin & Hall). split; [|split; [done|split; [done|]]].
        + destruct Hb' as [?|[? ?]]; [by left|right; split; [by right|done]].
        + intros c [<-|Hc] Hfc; [congruence|by apply Hall].
      - destruct IH as (Hb & Hall). split; [done|].
        intros c [<-|Hc] Hfc; [congruence|by apply Hall]. }
    unfold first_step_candidate, admissible in Hskip. cbn [fst] in Hskip.
    destruct (String.eqb tok INIT) eqn:E1; [by apply Hskip|].
    destruct (_is_punct tok && (max_punct <=? pu)) eqn:E2; [by apply Hskip|].
    destruct (negb (_is_punct tok) && bool_decide (tok ∈ used)) eqn:E3;
      [by apply Hskip|].
    destruct (String.eqb tok UNKNOWN) eqn:E4; [by apply Hskip|].
    clear Hskip.
    change (lookahead_score_in A bigram_probs max_punct pu used tok p12)
      with (sc (tok, p12)).
    assert (a_gt A (a_neg_inf A) bs = false) as Hbs.
    { destruct best as [b|]; [|subst bs; by apply gt_irrefl].
      destruct Hbest as [-> Hb]. by apply gt_asym. }
    destruct (a_gt A (sc (tok, p12)) bs) eqn:Hgt.
    + assert (a_gt A (sc (tok, p12)) (a_neg_inf A) = true) as Hfin.
      { destruct (a_gt A (sc (tok, p12)) (a_neg_inf A)) eqn:Hn; [done|].
        pose proof (not_gt_trans A HA _ _ _ Hn Hbs). congruence. }
      specialize (IH (Some (tok, p12)) (sc (tok, p12)) (conj eq_refl Hfin)).
      destruct (lookahead_pass_in _ _ _ _ _ cand1 _ _) as [b'|]; [|by destruct IH].
      destruct IH as (Hb' & Hle & Hfin' & Hall). split; [|split; [|split; [done|]]].
      * right. destruct Hb' as [[= ->]|[? ?]].
        -- split; [by left|].
           unfold first_step_candidate, admissible. cbn [fst]. by rewrite E1, E2, E3, E4.
        -- split; [by right|done].
      * apply (not_gt_trans A HA _ (sc (tok, p12))); [by apply gt_asym|done].
      * intros c [<-|Hc] Hfc; [done|by apply Hall].
    + specialize (IH best bs Hbest).
      destruct (lookahead_pass_in _ _ _ _ _ cand1 best bs) as [b'|].
      * destruct IH as (Hb' & Hle & Hfin & Hall). split; [|split; [done|split; [done|]]].
        -- destruct Hb' as [?|[? ?]]; [by left|right; split; [by right|done]].
        -- intros c [<-|Hc] Hfc; [|by apply Hall].
           by apply (not_gt_trans A HA _ bs).
      * destruct IH as (-> & Hall). split; [done|].
        intros c [<-|Hc] Hfc; [|by apply Hall]. by subst bs.
Qed.

(** C7 as stated fails on tables with an entry 0.  In
    [zero_continuation_table] the candidates after the seed [s] are [x]
    (probability 3/4) and [y] (1/4); the one continuation of [x] has
    probability 0, so bestNextLog(x) is minus infinity and so is score(x),
    below score(y) = ln(1/4) + ln(1); yet [x] is committed, the loop
    counting a continuation of probability 0 as 0.  In
    [zero_candidate_table] the one candidate [y] has probability 0; it is
    not committed, [UNKNOWN] is, by the relaxed pass. *)
Lemma lookahead_commits_best_score_counterexample :
  (∃ lp, sequence_generator_plus zero_continuation_table "s" 2 = Ok (["s"; "x"], lp))
  ∧ _get_row zero_continuation_table "s" = [("x", (3 # 4)%Q); ("y", (1 # 4)%Q)]
  ∧ first_step_candidate (2 / 5) 0 {["s"]} ("x", (3 # 4)%Q) = true
  ∧ first_step_candidate (2 / 5) 0 {["s"]} ("y", (1 # 4)%Q) = true
  ∧ continuations zero_continuation_table (2 / 5) 0 {["s"]} "x" = [("z", 0%Q)]
  ∧ spec_score zero_continuation_table (2 / 5) 0 {["s"]} "x" (3 # 4) = NegInf
  ∧ spec_score zero_continuation_table (2 / 5) 0 {["s"]} "y" (1 # 4) = Ln (1 # 4)
  ∧ log_gt (spec_score zero_continuation_table (2 / 5) 0 {["s"]} "y" (1 # 4))
           (spec_score zero_continuation_table (2 / 5) 0 {["s"]} "x" (3 # 4)) = true
  ∧ (∃ lp, sequence_generator_plus zero_candidate_table "s" 2 = Ok (["s"; UNKNOWN], lp))
  ∧ _get_row zero_candidate_table "s" = [(UNKNOWN, (1 # 2)%Q); ("y", 0%Q)]
  ∧ first_step_candidate (2 / 5) 0 {["s"]} ("y", 0%Q) = true.
Proof.
  split; [eexists; vm_compute; reflexivity|].
  do 7 (split; [vm_compute; reflexivity|]).
  split; [eexists; vm_compute; reflexivity|].
  split; vm_compute; reflexivity.
Qed.

(** C7, amended.  In the lookahead generator the score of a candidate is
    L(probability(tok|prev)) + bestNextLog(tok), computed in the arithmetic
    of the generator, where L(p) is ln(p) for p > 0 and minus infinity
    otherwise, and bestNextLog(tok) is ln of the probability of the
    highest-probability admissible continuation from the row of [tok] under
    the hypothetical constraint state when that probability is positive,
    and 0 when it is not or when there is no admissible continuation.  A
    score is above minus infinity exactly when the probability of the
    candidate is positive.  If some admissible candidate other than
    [UNKNOWN] has a positive probability, the first pass commits such a
    candidate, and no candidate has a higher score; if none has, the first
    pass commits nothing and the token is that of the relaxed pass or of the
    absolute fallback.  Scores are computed and compared in the arithmetic
    of the generator, which is any arithmetic that satisfies [arith_laws];
    [plus_choice], the generator over the exact logarithms, is one. *)
Theorem lookahead_commits_maximal_score (A : log_arith) (bigram_probs : Bigram)
    (max_punct : Z) (st : state) :
  arith_laws A →
  let row := _get_row bigram_probs (prev st) in
  let pu := punct_used st in
  let used := used_nonpunct st in
  let candidate := first_step_candidate max_punct pu used in
  let score := λ c : string * Q,
                 lookahead_score_in A bigram_probs max_punct pu used c.1 c.2 in
  (∀ c, score c = computed_score A bigram_probs max_punct pu used c.1 c.2
        ∧ a_gt A (score c) (a_neg_inf A) = Qlt_b 0 c.2)
  ∧ (∀ tok e,
       best_entry (continuations bigram_probs max_punct pu used tok) = Some e →
       In e (continuations bigram_probs max_punct pu used tok)
       ∧ ∀ c, In c (continuations bigram_probs max_punct pu used tok) →
           (c.2 <= e.2)%Q)
  ∧ ((∃ c, In c row ∧ candidate c = true ∧ (0 < c.2)%Q) →
       ∃ tok p,
         In (tok, p) row ∧ candidate (tok, p) = true ∧ (0 < p)%Q
         ∧ plus_choice_in A bigram_probs max_punct st = (FirstPass, tok)
         ∧ ∀ c, In c row → candidate c = true →
             a_gt A (score c) (score (tok, p)) = false)
  ∧ ((∀ c, In c row → candidate c = true → (c.2 <= 0)%Q) →
       plus_choice_in A bigram_probs max_punct st =
         match relaxed_pass max_punct pu used (sorted_desc row) with
         | Some (tok, _) => (RelaxedPass, tok)
         | None => (AbsoluteFallback, UNKNOWN)
         end)
  ∧ plus_choice_in exact_arith bigram_probs max_punct st
    = plus_choice bigram_probs max_punct st
  ∧ seq (plus_step bigram_probs max_punct st)
    = (seq st ++ [(plus_choice bigram_probs max_punct st).2])%list.
Proof.
  intros HA row pu used candidate score.
  assert (∀ c, score c = computed_score A bigram_probs max_punct pu used c.1 c.2
               ∧ a_gt A (score c) (a_neg_inf A) = Qlt_b 0 c.2) as Hscore.
  { intros c. unfold score.
    rewrite (lookahead_score_in_computed A _ _ _ _ _ _ HA).
    split; [done|]. by apply computed_score_above. }
  split; [exact Hscore|].
  split; [intros tok e; apply best_entry_max|].
  pose proof (lookahead_pass_in_max A bigram_probs max_punct pu used (sorted_desc row)
                HA None (a_neg_inf A) eq_refl) as Hmax.
  cbv zeta in Hmax.
  split; [|split; [|split; [apply plus_choice_exact|done]]].
  - intros (c & Hc & Hcand & Hpos).
    unfold plus_choice_in. fold row pu used.
    destruct (lookahead_pass_in _ _ _ _ _ _ _ _) as [[tok p]|].
    + destruct Hmax as ([?|[Hin Hbest]] & _ & Hfin & Hall); [done|].
      apply (proj1 (sorted_desc_In _ _)) in Hin.
      exists tok, p. split; [done|]. split; [done|]. split.
      { apply Qlt_b_true. destruct (Hscore (tok, p)) as [_ Habove].
        cbn [snd] in Habove. rewrite <- Habove. exact Hfin. }
      split; [done|].
      intros c' Hc' Hcand'. apply Hall; [by apply sorted_desc_In|done].
    + destruct Hmax as (_ & Hall). exfalso.
      specialize (Hall c (proj2 (sorted_desc_In _ _) Hc) Hcand).
      destruct (Hscore c) as [_ Habove]. unfold score in Habove.
      rewrite Habove in Hall. apply Qlt_b_true in Hpos. congruence.
  - intros Hnone.
    unfold plus_choice_in. fold row pu used.
    destruct (lookahead_pass_in _ _ _ _ _ _ _ _) as [[tok p]|]; [|done].
    destruct Hmax as ([?|[Hin Hbest]] & _ & Hfin & _); [done|]. exfalso.
    apply (proj1 (sorted_desc_In _ _)) in Hin.
    specialize (Hnone (tok, p) Hin Hbest). simpl in Hnone.
    destruct (Hscore (tok, p)) as [_ Habove]. unfold score in Habove.
    rewrite Habove in Hfin. apply Qlt_b_true in Hfin.
    by apply (Qlt_not_le _ _ Hfin).
Qed.

Lemma lookahead_commits_maximal_score_witness :
  arith_laws exact_arith
  ∧ plus_choice (bigram_model ex_corpus) 1 ex_state = (FirstPass, "dog")
  ∧ greedy_choice (bigram_model ex_corpus) 1 ex_state = (FirstPass, "ran").
Proof.
  split; [exact exact_arith_laws|]. split; [|vm_compute; reflexivity].
  destruct (lookahead_commits_maximal_score exact_arith (bigram_model ex_corpus) 1
              ex_state exact_arith_laws)
    as (_ & _ & Hsome & _ & Hexact & _).
  destruct Hsome as (tok & p & _ & _ & _ & Hc & _).
  - exists ("ran", (Qmake 1 6)). split; [vm_compute; tauto|].
    split; vm_compute; reflexivity.
  - rewrite <- Hexact, Hc. rewrite Hexact in Hc. vm_compute in Hc.
    by injection Hc as <-.
Defined.

(** * Further properties of [language_models.py] *)

(** ** The tokens of a line *)

Lemma split_go_tokens s : ∀ cur,
  string_all not_space cur = true →
  Forall (λ w, w ≠ "" ∧ string_all not_space w = true) (split_go cur s).
Proof.
  induction s as [|c s IH]; intros cur Hcur; simpl.
  - destruct (String.eqb cur "") eqn:E; [constructor|].
    apply eqb_false_iff in E. by repeat constructor.
  - destruct (is_space c) eqn:Hc.
    + destruct (String.eqb cur "") eqn:E; [by apply IH|].
      apply eqb_false_iff in E. constructor; [done|by apply IH].
    + apply IH. clear IH. induction cur as [|d cur IHc]; simpl in *.
      * unfold not_space. by rewrite Hc.
      * apply andb_true_iff in Hcur as [Hd Hcur]. rewrite Hd. by apply IHc.
Qed.

Lemma line_tokens_Forall (line : string) :
  Forall (λ w, w ≠ UNKNOWN ∧ string_all not_space w = true) (line_tokens line).
Proof. unfold line_tokens, split. by apply split_go_tokens. Qed.

Lemma UNKNOWN_not_in_vocabulary lines : UNKNOWN ∉ spec_vocabulary lines.
Proof.
  unfold spec_vocabulary. rewrite elem_of_list_to_set.
  intros Hin. apply list_elem_of_In, in_flat_map in Hin as (line & _ & Hin).
  pose proof (line_tokens_Forall line) as Hall.
  rewrite Forall_forall in Hall. apply list_elem_of_In, Hall in Hin. by destruct Hin.
Qed.

Lemma corpus_bigrams_nonempty lines b :
  b ∈ corpus_bigrams lines → b.1 ≠ UNKNOWN ∧ b.2 ≠ UNKNOWN.
Proof.
  intros Hb. split.
  - unfold corpus_bigrams in Hb.
    apply list_elem_of_In, in_flat_map in Hb as (line & _ & Hb).
    unfold line_bigrams in Hb. apply list_elem_of_In in Hb.
    destruct b as [b1 b2]. apply elem_of_zip_l in Hb. simpl.
    apply elem_of_cons in Hb as [->|Hb]; [done|].
    pose proof (line_tokens_Forall line) as Hall.
    rewrite Forall_forall in Hall. by apply Hall in Hb as [? _].
  - intros Hu. apply corpus_bigrams_vocabulary in Hb.
    rewrite Hu in Hb. by apply UNKNOWN_not_in_vocabulary in Hb.
Qed.

Lemma spec_count_zero bs p c : (p, c) ∉ bs → spec_count bs p c = 0%nat.
Proof.
  intros Hnin. induction bs as [|b bs IH]; [done|].
  apply not_elem_of_cons in Hnin as [Hne Hnin].
  rewrite spec_count_cons, IH, decide_False; done.
Qed.

Lemma spec_totalCount_zero bs p : p ∉ bs.*1 → spec_totalCount bs p = 0%nat.
Proof.
  intros Hnin. induction bs as [|b bs IH]; [done|].
  simpl in Hnin. apply not_elem_of_cons in Hnin as [Hne Hnin].
  rewrite spec_totalCount_cons, IH, decide_False; done.
Qed.

Lemma spec_count_le_total bs p c : (spec_count bs p c ≤ spec_totalCount bs p)%nat.
Proof.
  induction bs as [|b bs IH]; [done|].
  rewrite spec_count_cons, spec_totalCount_cons.
  destruct (decide (b = (p, c))) as [->|Hne]; simpl.
  - rewrite decide_True by done. lia.
  - destruct (decide (b.1 = p)); lia.
Qed.

(** ** Every query of a built model *)

(** The row a query resolves to: the row of [prev] if it is materialized,
    the row of [UNKNOWN] otherwise. *)
Lemma bigram_model_get_row lines prev :
  let c := count_corpus lines in
  let next_vocab := vocab c ∪ {[UNKNOWN]} in
  _get_row (bigram_model lines) prev =
    build_row c next_vocab (size next_vocab)
      (if decide (prev ∈ dom (prev_counts c) ∪ {[INIT]} ∪ {[UNKNOWN]})
       then prev else UNKNOWN).
Proof.
  cbv zeta. unfold _get_row. rewrite !bigram_model_lookup. cbv zeta.
  destruct (decide (prev ∈ _)); [done|].
  rewrite decide_True by set_solver. done.
Qed.

Lemma vocabulary_size_pos lines : (0 < size (spec_vocabulary lines ∪ {[UNKNOWN]}))%nat.
Proof.
  assert (size (spec_vocabulary lines ∪ {[UNKNOWN]}) ≠ 0%nat); [|lia].
  intros Hz. apply size_empty_inv in Hz. set_solver.
Qed.

(** On a built model [_get_prob] of any two strings is the smoothed
    estimate from the counts of the corpus. *)
Lemma get_prob_smoothed (lines : list string) (prev curr : string) :
  _get_prob (bigram_model lines) prev curr =
    smoothed (spec_count (corpus_bigrams lines) prev curr)
             (spec_totalCount (corpus_bigrams lines) prev
              + size (spec_vocabulary lines ∪ {[UNKNOWN]})).
Proof.
  unfold _get_prob. cbv zeta. rewrite bigram_model_get_row. cbv zeta.
  unfold build_row. rewrite !row_get_fmap, count_corpus_vocab.
  destruct (count_corpus_tallies lines) as (Hb & Hp & Hd).
  set (bs := corpus_bigrams lines) in *.
  set (p' := if decide (prev ∈ _) then prev else UNKNOWN).
  assert (spec_totalCount bs p' = spec_totalCount bs prev) as Htot.
  { subst p'. destruct (decide (prev ∈ _)) as [|Hnin]; [done|].
    rewrite !spec_totalCount_zero; [done| |].
    - intros Hin. apply Hnin. rewrite Hd. set_solver.
    - intros Hin. apply list_elem_of_fmap in Hin as (b & Hb1 & Hin).
      apply corpus_bigrams_nonempty in Hin as [? _]. congruence. }
  assert (∀ x, spec_count bs p' x = spec_count bs prev x) as Hcnt.
  { intros x. subst p'. destruct (decide (prev ∈ _)) as [|Hnin]; [done|].
    rewrite !spec_count_zero; [done| |].
    - intros Hin. apply Hnin. rewrite Hd.
      apply elem_of_union_l, elem_of_union_l, elem_of_list_to_set, list_elem_of_fmap.
      by exists (prev, x).
    - intros Hin. by apply corpus_bigrams_nonempty in Hin as [? _]. }
  rewrite !Hb, !Hp, Htot, !Hcnt.
  destruct (decide (curr ∈ elements (spec_vocabulary lines ∪ {[UNKNOWN]})))
    as [Hin|Hnin]; [done|].
  rewrite decide_True by (apply elem_of_elements; set_solver). simpl.
  rewrite !spec_count_zero; [done| |].
  - intros Hin. apply Hnin, elem_of_elements.
    apply corpus_bigrams_vocabulary in Hin. set_solver.
  - intros Hin. by apply corpus_bigrams_nonempty in Hin as [_ ?].
Qed.

Lemma smoothed_le_1 temp denom :
  (temp + 1 ≤ denom)%nat → (smoothed temp denom <= 1)%Q.
Proof.
  intros Hle. unfold smoothed. apply Qle_shift_div_r.
  - change 0%Q with (inject_Z 0). rewrite <- Zlt_Qlt. lia.
  - rewrite Qmult_1_l. rewrite <- Zle_Qle. lia.
Qed.

Lemma get_prob_bounds (lines : list string) (prev curr : string) :
  (0 < _get_prob (bigram_model lines) prev curr)%Q
  ∧ (_get_prob (bigram_model lines) prev curr <= 1)%Q.
Proof.
  rewrite get_prob_smoothed.
  pose proof (vocabulary_size_pos lines).
  pose proof (spec_count_le_total (corpus_bigrams lines) prev curr).
  split; [apply smoothed_pos|apply smoothed_le_1]; lia.
Qed.

(** X1. The empty string is never a token of the corpus.  [UNKNOWN] is not
    in the vocabulary [vocab] that [bigram_model] collects, so [smooth] is
    the size of the vocabulary plus one; no bigram is counted with
    [UNKNOWN] as its current or as its previous token; and in the built
    model the probability of [UNKNOWN] after any [prev] is the smoothing
    mass alone, 1 / (prev_counts(prev) + smooth). *)
Theorem bigram_model_unknown_unseen (lines : list string) (prev : string) :
  let c := count_corpus lines in
  let smooth := size (vocab c ∪ {[UNKNOWN]}) in
  (UNKNOWN ∉ vocab c)
  ∧ smooth = S (size (vocab c))
  ∧ bigram_count c prev UNKNOWN = 0%nat
  ∧ bigram_count c UNKNOWN prev = 0%nat
  ∧ prev_count c UNKNOWN = 0%nat
  ∧ _get_prob (bigram_model lines) prev UNKNOWN
    = smoothed 0 (prev_count c prev + smooth).
Proof.
  cbv zeta. rewrite get_prob_smoothed, count_corpus_vocab.
  destruct (count_corpus_tallies lines) as (Hb & Hp & _).
  rewrite !Hb, !Hp.
  pose proof (UNKNOWN_not_in_vocabulary lines) as Hu.
  assert (∀ p, spec_count (corpus_bigrams lines) p UNKNOWN = 0%nat) as Hcur.
  { intros p. apply spec_count_zero. intros Hin.
    by apply corpus_bigrams_nonempty in Hin as [_ ?]. }
  split; [done|]. split.
  { rewrite size_union by set_solver. rewrite size_singleton. lia. }
  split; [apply Hcur|]. split.
  { apply spec_count_zero. intros Hin.
    by apply corpus_bigrams_nonempty in Hin as [? _]. }
  split.
  { apply spec_totalCount_zero. intros Hin.
    apply list_elem_of_fmap in Hin as (b & Hb1 & Hin).
    apply corpus_bigrams_nonempty in Hin as [? _]. congruence. }
  by rewrite Hcur.
Qed.

(** X2. The two-level fallback makes the smoothed estimate hold for every
    pair of strings, seen in the corpus or not: on a built model
    [_get_prob] of any [prev] and [curr] is (count(prev,curr) + 1) /
    (totalCount(prev) + S), the counts being the occurrences in the corpus
    (0 for an unseen [curr] and for everything after an unseen [prev]); it
    is always a probability, strictly positive and at most 1. *)
Theorem get_prob_closed_form (lines : list string) (prev curr : string) :
  let bs := corpus_bigrams lines in
  let smooth := size (spec_vocabulary lines ∪ {[UNKNOWN]}) in
  _get_prob (bigram_model lines) prev curr =
    (inject_Z (Z.of_nat (spec_count bs prev curr + 1))
     / inject_Z (Z.of_nat (spec_totalCount bs prev + smooth)))%Q
  ∧ (curr ∉ spec_vocabulary lines → spec_count bs prev curr = 0%nat)
  ∧ (prev ∉ bs.*1 → spec_count bs prev curr = 0%nat ∧ spec_totalCount bs prev = 0%nat)
  ∧ (0 < _get_prob (bigram_model lines) prev curr)%Q
  ∧ (_get_prob (bigram_model lines) prev curr <= 1)%Q.
Proof.
  cbv zeta. split; [apply get_prob_smoothed|]. split; [|split].
  - intros Hc. apply spec_count_zero. intros Hin.
    by apply corpus_bigrams_vocabulary in Hin.
  - intros Hp. split; [|by apply spec_totalCount_zero].
    apply spec_count_zero. intros Hin. apply Hp.
    apply list_elem_of_fmap. by exists (prev, curr).
  - rewrite get_prob_smoothed.
    pose proof (vocabulary_size_pos lines).
    pose proof (spec_count_le_total (corpus_bigrams lines) prev curr).
    split; [apply smoothed_pos|apply smoothed_le_1]; lia.
Qed.

(** ** The row of any previous token *)

Lemma build_row_keys c next_vocab smooth prev :
  row_keys (build_row c next_vocab smooth prev) = elements next_vocab.
Proof.
  unfold row_keys, build_row. rewrite <- list_fmap_compose.
  apply list_fmap_id.
Qed.

Lemma build_row_sum lines prev :
  let c := count_corpus lines in
  let next_vocab := vocab c ∪ {[UNKNOWN]} in
  (row_sum (build_row c next_vocab (size next_vocab) prev) == 1)%Q.
Proof.
  cbv zeta. rewrite count_corpus_vocab.
  pose proof (vocabulary_size_pos lines) as Hsize.
  unfold build_row. rewrite row_sum_smoothed by lia.
  destruct (count_corpus_tallies lines) as (Hb & Hp & _).
  rewrite (sum_list_fmap_ext _ (spec_count (corpus_bigrams lines) prev))
    by (intros x; apply Hb).
  rewrite sum_spec_count.
  - rewrite <- Hp. unfold size, set_size in *. simpl in *.
    apply Qmult_inv_r.
    change 0%Q with (inject_Z 0). rewrite inject_Z_injective. lia.
  - apply NoDup_elements.
  - intros b Hb'. apply elem_of_elements.
    apply corpus_bigrams_vocabulary in Hb'. set_solver.
Qed.

(** X3. On a built model every previous token, seen or not, resolves to a
    full row: its keys are the tokens of the vocabulary and [UNKNOWN], each
    once, and its values sum to 1. *)
Theorem get_row_is_distribution (lines : list string) (prev : string) :
  let row := _get_row (bigram_model lines) prev in
  NoDup (row_keys row)
  ∧ (∀ curr, curr ∈ row_keys row ↔ curr ∈ spec_vocabulary lines ∪ {[UNKNOWN]})
  ∧ (row_sum row == 1)%Q.
Proof.
  cbv zeta. rewrite bigram_model_get_row. cbv zeta.
  rewrite build_row_keys. split; [apply NoDup_elements|]. split.
  - intros curr. by rewrite elem_of_elements, count_corpus_vocab.
  - apply build_row_sum.
Qed.

(** ** Lines: their order, and blank lines *)

Lemma corpus_bigrams_nonblank lines :
  corpus_bigrams (filter (λ l, strip l ≠ "") lines) = corpus_bigrams lines.
Proof.
  unfold corpus_bigrams. induction lines as [|l lines IH]; [done|].
  rewrite filter_cons. case_decide as Hl; simpl; [by rewrite IH|].
  unfold line_tokens at 2. by rewrite Hl, split_empty.
Qed.

Lemma corpus_tokens_nonblank lines :
  flat_map line_tokens (filter (λ l, strip l ≠ "") lines) = flat_map line_tokens lines.
Proof.
  induction lines as [|l lines IH]; [done|].
  rewrite filter_cons. case_decide as Hl; simpl; [by rewrite IH|].
  unfold line_tokens at 2. by rewrite Hl, split_empty.
Qed.

Lemma spec_count_perm bs bs' p c :
  bs ≡ₚ bs' → spec_count bs p c = spec_count bs' p c.
Proof. intros H. unfold spec_count. by rewrite H. Qed.

Lemma spec_totalCount_perm bs bs' p :
  bs ≡ₚ bs' → spec_totalCount bs p = spec_totalCount bs' p.
Proof. intros H. unfold spec_totalCount. by rewrite H. Qed.

(** X4. The model depends on the non-blank lines only, and not on their
    order: two corpora whose non-blank lines are the same up to order give
    models that materialize the same rows and answer every query alike. *)
Theorem bigram_model_line_order (lines lines' : list string) :
  filter (λ l, strip l ≠ "") lines ≡ₚ filter (λ l, strip l ≠ "") lines' →
  dom (bigram_model lines) = dom (bigram_model lines')
  ∧ ∀ prev curr,
      _get_prob (bigram_model lines) prev curr
      = _get_prob (bigram_model lines') prev curr.
Proof.
  intros Hperm.
  assert (corpus_bigrams lines ≡ₚ corpus_bigrams lines') as Hbs.
  { rewrite <- (corpus_bigrams_nonblank lines), <- (corpus_bigrams_nonblank lines').
    unfold corpus_bigrams. by apply Permutation_flat_map. }
  assert (spec_vocabulary lines = spec_vocabulary lines') as Hv.
  { unfold spec_vocabulary.
    rewrite <- (corpus_tokens_nonblank lines), <- (corpus_tokens_nonblank lines').
    apply list_to_set_perm_L. by apply Permutation_flat_map. }
  split.
  - rewrite !bigram_model_dom. f_equal. f_equal.
    apply list_to_set_perm_L. by rewrite Hbs.
  - intros prev curr. rewrite !get_prob_smoothed, Hv.
    by rewrite (spec_count_perm _ _ _ _ Hbs), (spec_totalCount_perm _ _ _ Hbs).
Qed.

Lemma bigram_model_line_order_witness :
  dom (bigram_model ["the cat"; ""; "a b"]) = dom (bigram_model ["a b"; "  "; "the cat"])
  ∧ ∀ prev curr,
      _get_prob (bigram_model ["the cat"; ""; "a b"]) prev curr
      = _get_prob (bigram_model ["a b"; "  "; "the cat"]) prev curr.
Proof.
  apply bigram_model_line_order.
  vm_compute. apply perm_swap.
Defined.

(** ** What every run of a loop keeps *)

Lemma step_logs_snoc bigram_probs s a b :
  last s = Some a →
  step_logs bigram_probs (s ++ [b])
  = (step_logs bigram_probs s ++ [guarded_log (_get_prob bigram_probs a b)])%list.
Proof.
  unfold step_logs. induction s as [|x s IH]; [done|].
  destruct s as [|y s]; simpl.
  - by intros [= ->].
  - intros Hlast. f_equal. apply IH. exact Hlast.
Qed.

Lemma chain_snoc R s a b :
  chain R s → last s = Some a → R a b → chain R (s ++ [b]).
Proof.
  intros Hchain Hlast HR i a' b' Hi Hsi.
  destruct (decide (S i < length s)%nat) as [Hlt|Hge].
  - rewrite lookup_app_l in Hi by lia. rewrite lookup_app_l in Hsi by lia.
    by apply (Hchain i).
  - assert (S i = length s) as Hlen.
    { apply lookup_lt_Some in Hsi. rewrite length_app in Hsi. simpl in Hsi. lia. }
    rewrite lookup_app_l in Hi by lia.
    rewrite Hlen, list_lookup_middle in Hsi by done. injection Hsi as <-.
    rewrite last_lookup in Hlast.
    replace (pred (length s)) with i in Hlast by lia.
    rewrite Hi in Hlast. by injection Hlast as ->.
Qed.

Lemma last_snoc_Some {A} (s : list A) b : last (s ++ [b]) = Some b.
Proof. apply last_snoc. Qed.

Section walk.
Variable bigram_probs : Bigram.
Variable choice : state → origin * string.
Variable len : Z.

Lemma run_loop_seq_app fuel : ∀ st,
  ∃ l, seq (run_loop bigram_probs choice len fuel st) = (seq st ++ l)%list.
Proof.
  induction fuel as [|fuel IH]; intros st; simpl.
  - exists []. by rewrite app_nil_r.
  - destruct (_ <? len); [|exists []; by rewrite app_nil_r].
    destruct (IH (commit bigram_probs st (choice st).2)) as [l Hl].
    exists ((choice st).2 :: l). rewrite Hl. simpl. by rewrite <- app_assoc.
Qed.

(** A relation that every choice keeps with the previous token holds all
    along the sequence. *)
Lemma run_loop_chain (R : string → string → Prop) fuel :
  (∀ st, R (prev st) (choice st).2) →
  ∀ st,
    last (seq st) = Some (prev st) → chain R (seq st) →
    chain R (seq (run_loop bigram_probs choice len fuel st)).
Proof.
  intros HR. induction fuel as [|fuel IH]; intros st Hlast Hchain; simpl; [done|].
  destruct (_ <? len); [|done].
  apply IH; simpl.
  - apply last_snoc_Some.
  - by eapply chain_snoc.
Qed.

(** The accumulated logarithm is the initial one plus those of the
    transitions of the sequence. *)
Lemma run_loop_logp logp0 fuel : ∀ st,
  last (seq st) = Some (prev st) →
  logp st = foldl log_add logp0 (step_logs bigram_probs (seq st)) →
  let st' := run_loop bigram_probs choice len fuel st in
  logp st' = foldl log_add logp0 (step_logs bigram_probs (seq st')).
Proof.
  induction fuel as [|fuel IH]; intros st Hlast Hlogp; simpl; [done|].
  destruct (_ <? len); [|done].
  apply IH; simpl.
  - apply last_snoc_Some.
  - rewrite (step_logs_snoc _ _ _ _ Hlast), foldl_app. simpl. by rewrite Hlogp.
Qed.

(** With probabilities in (0, 1] the accumulated logarithm stays that of a
    probability. *)
Lemma run_loop_log_of_probability fuel :
  (∀ a b, (0 < _get_prob bigram_probs a b)%Q ∧ (_get_prob bigram_probs a b <= 1)%Q) →
  ∀ st,
    log_of_probability (logp st) →
    log_of_probability (logp (run_loop bigram_probs choice len fuel st)).
Proof.
  intros Hprob. induction fuel as [|fuel IH]; intros st Hst; simpl; [done|].
  destruct (_ <? len); [|done].
  apply IH. simpl.
  destruct (Hprob (prev st) (choice st).2) as [Hpos Hle].
  rewrite (guarded_log_positive _ Hpos).
  destruct (logp st) as [|q]; [done|]. simpl in *. destruct Hst as [Hq Hq1].
  split.
  - rewrite <- (Qmult_0_l (_get_prob bigram_probs (prev st) (choice st).2)).
    by apply Qmult_lt_compat_r.
  - rewrite <- (Qmult_1_l 1).
    apply Qmult_le_compat_nonneg; (split; [by apply Qlt_le_weak|done]).
Qed.
End walk.

(** ** More on the two generators *)

Lemma generate_run g bigram_probs init_word len :
  generate g bigram_probs init_word len =
    if len <=? 0 then Ok ([], log_zero)
    else
      match initial_logp bigram_probs init_word with
      | ValueError => ValueError
      | Ok logp0 =>
          let st := run_loop bigram_probs (strategy_choice g bigram_probs (len / 5)) len
                      (Z.to_nat len) (initial_state init_word logp0) in
          Ok (seq st, logp st)
      end.
Proof. apply generate_unfold. Qed.

(** X5. On a model built by [bigram_model] the generators never raise: for
    every corpus, seed and length they return a sequence of max(0, length)
    tokens that starts with the seed, with a finite log-probability that is
    the logarithm of a number in (0, 1]. *)
Theorem generate_on_built_model (g : strategy) (lines : list string)
    (init_word : string) (len : Z) :
  ∃ s q,
    generate g (bigram_model lines) init_word len = Ok (s, Ln q)
    ∧ (0 < q)%Q ∧ (q <= 1)%Q
    ∧ Z.of_nat (length s) = Z.max 0 len
    ∧ (0 < len → head s = Some init_word).
Proof.
  rewrite generate_run.
  destruct (Z.leb_spec len 0) as [Hle|Hlt].
  { exists [], 1%Q. repeat split; try done; simpl; lia. }
  assert (∃ l0, initial_logp (bigram_model lines) init_word = Ok l0
                ∧ log_of_probability l0) as (l0 & -> & Hl0).
  { unfold initial_logp, math_log.
    destruct (String.eqb init_word ""); [by exists log_zero|].
    destruct (get_prob_bounds lines INIT init_word) as [Hpos Hle].
    pose proof Hpos as Hpos'. apply Qlt_b_true in Hpos'. rewrite Hpos'.
    by eexists. }
  cbv zeta.
  set (st := run_loop _ _ _ _ _).
  assert (log_of_probability (logp st)) as Hlog
    by (apply run_loop_log_of_probability; [apply get_prob_bounds|done]).
  destruct (logp st) as [|q] eqn:Hq; [done|]. destruct Hlog as [Hq0 Hq1].
  exists (seq st), q. split; [done|]. split; [done|]. split; [done|]. split.
  - subst st. rewrite run_length; simpl; lia.
  - intros _. by apply run_seq_prefix.
Qed.

(** X6. The contract of both generators on any table.  They raise exactly
    when the length is positive, the seed is non-empty and the probability of
    the seed after [INIT] is not positive.  Otherwise they return max(0,
    length) tokens, the first being the seed, and for a length that is not
    positive the log-probability 0. *)
Theorem generate_contract (g : strategy) (bigram_probs : Bigram)
    (init_word : string) (len : Z) :
  match generate g bigram_probs init_word len with
  | ValueError =>
      0 < len ∧ init_word ≠ "" ∧ (_get_prob bigram_probs INIT init_word <= 0)%Q
  | Ok (s, lp) =>
      Z.of_nat (length s) = Z.max 0 len
      ∧ (0 < len →
         head s = Some init_word
         ∧ (init_word = "" ∨ (0 < _get_prob bigram_probs INIT init_word)%Q))
      ∧ (len ≤ 0 → s = [] ∧ lp = log_zero)
  end.
Proof.
  destruct (generate g bigram_probs init_word len) as [[s lp]|] eqn:E.
  - destruct (Z.leb_spec len 0) as [Hle|Hlt].
    + rewrite generate_nonpositive in E by done. injection E as <- <-.
      split; [simpl; lia|]. split; [lia|done].
    + pose proof E as E'.
      apply generate_inv in E' as (st & tr & _ & _ & _ & _ & Hlen & Hhd); [|done].
      split; [lia|]. split; [|lia]. intros _. split; [done|].
      destruct (decide (init_word = "")) as [|Hne]; [by left|right].
      destruct (Qlt_le_dec 0 (_get_prob bigram_probs INIT init_word)) as [|Hp];
        [done|].
      assert (generate g bigram_probs init_word len = ValueError) as E'
        by (by apply generate_ValueError).
      congruence.
  - exact (proj1 (generate_ValueError g bigram_probs init_word len) E).
Qed.

Lemma strategy_choice_from_row g bigram_probs max_punct st :
  (strategy_choice g bigram_probs max_punct st).2 ≠ INIT
  ∧ ((strategy_choice g bigram_probs max_punct st).2 = UNKNOWN
     ∨ (strategy_choice g bigram_probs max_punct st).2
       ∈ row_keys (_get_row bigram_probs (prev st))).
Proof.
  assert (∀ tok p,
            In (tok, p) (sorted_desc (_get_row bigram_probs (prev st))) →
            admissible max_punct (punct_used st) (used_nonpunct st) tok = true →
            tok ≠ INIT
            ∧ (tok = UNKNOWN ∨ tok ∈ row_keys (_get_row bigram_probs (prev st))))
    as Hrow.
  { intros tok p Hin Ha. apply admissible_spec in Ha as (Hinit & _).
    split; [done|]. right. apply list_elem_of_fmap. exists (tok, p).
    split; [done|]. by apply list_elem_of_In, sorted_desc_In. }
  destruct g; simpl; unfold greedy_choice, plus_choice.
  - destruct (first_pass _ _ _ _) as [[tok p]|] eqn:E1.
    + apply first_pass_Some in E1 as (Hin & Ha & _). by eapply Hrow.
    + destruct (relaxed_pass _ _ _ _) as [[tok p]|] eqn:E2.
      * apply relaxed_pass_Some in E2 as (Hin & Ha). by eapply Hrow.
      * split; [done|by left].
  - destruct (lookahead_pass _ _ _ _ _ _ _) as [[tok p]|] eqn:E1.
    + apply lookahead_pass_Some in E1 as [?|(Hin & Ha & _)]; [done|].
      by eapply Hrow.
    + destruct (relaxed_pass _ _ _ _) as [[tok p]|] eqn:E2.
      * apply relaxed_pass_Some in E2 as (Hin & Ha). by eapply Hrow.
      * split; [done|by left].
Qed.

(** X7. The generators invent no token: in a returned sequence every token
    after the first is [UNKNOWN] or a key of the row that the token before
    it resolves to, and it is never [INIT]. *)
Theorem generated_tokens_come_from_rows (g : strategy) (bigram_probs : Bigram)
    (init_word : string) (len : Z) (s : list string) (lp : logv) :
  generate g bigram_probs init_word len = Ok (s, lp) →
  chain (λ a b, b ≠ INIT ∧ (b = UNKNOWN ∨ b ∈ row_keys (_get_row bigram_probs a))) s.
Proof.
  rewrite generate_run. intros H.
  destruct (len <=? 0); [by injection H as <- <-; intros i a b Hi|].
  destruct (initial_logp bigram_probs init_word) as [logp0|]; [|done].
  cbv zeta in H. injection H as <- _.
  apply run_loop_chain; [|done|by intros [|i] a b Hi Hsi].
  intros st. apply strategy_choice_from_row.
Qed.

Lemma generated_tokens_come_from_rows_witness :
  chain (λ a b, b ≠ INIT
                ∧ (b = UNKNOWN ∨ b ∈ row_keys (_get_row (bigram_model ex_corpus) a)))
        ["the"; "cat"; "sat"; "dog"; "ran"; ""; ""; ""].
Proof.
  apply (generated_tokens_come_from_rows Lookahead (bigram_model ex_corpus) "the" 8 _
           (Ln (24 # 4064256))).
  vm_compute. reflexivity.
Defined.

(** X8. The log-probability that is returned is that of the returned
    sequence: the initial logarithm plus, for every token after the first,
    the logarithm of its probability after the token before it (minus
    infinity for a probability that is not positive), added in order. *)
Theorem log_probability_of_sequence (g : strategy) (bigram_probs : Bigram)
    (init_word : string) (len : Z) (s : list string) (lp : logv) :
  generate g bigram_probs init_word len = Ok (s, lp) →
  0 < len →
  ∃ logp0,
    initial_logp bigram_probs init_word = Ok logp0
    ∧ lp = foldl log_add logp0 (step_logs bigram_probs s).
Proof.
  rewrite generate_run. intros H Hlen.
  destruct (Z.leb_spec len 0) as [?|_]; [lia|].
  destruct (initial_logp bigram_probs init_word) as [logp0|]; [|done].
  cbv zeta in H. injection H as <- <-.
  exists logp0. split; [done|].
  by apply run_loop_logp.
Qed.

Lemma log_probability_of_sequence_witness :
  ∃ logp0,
    initial_logp (bigram_model ex_corpus) "the" = Ok logp0
    ∧ Ln (12 # 4064256)
      = foldl log_add logp0
          (step_logs (bigram_model ex_corpus)
             ["the"; "cat"; "sat"; "ran"; "dog"; ""; ""; ""]).
Proof.
  apply (log_probability_of_sequence Greedy (bigram_model ex_corpus) "the" 8).
  - vm_compute. reflexivity.
  - lia.
Defined.

Lemma first_pass_None max_punct pu used row :
  first_pass max_punct pu used (sorted_desc row) = None →
  ∀ c, In c row → first_step_candidate max_punct pu used c = false.
Proof.
  rewrite first_pass_filter. intros H c Hc.
  apply (head_filter_None _ _ H c), sorted_desc_In, Hc.
Qed.

(** X9. One step of the greedy generator is strictly greedy.  If the row of
    the previous token has an admissible entry other than [UNKNOWN], the
    first pass takes one of highest probability among them; if not, but
    [UNKNOWN] is an admissible key of the row, the relaxed pass takes
    [UNKNOWN]; if the row has no admissible entry at all, the fallback gives
    [UNKNOWN]. *)
Theorem greedy_step_is_greedy (bigram_probs : Bigram) (max_punct : Z) (st : state) :
  let row := _get_row bigram_probs (prev st) in
  let cand := first_step_candidate max_punct (punct_used st) (used_nonpunct st) in
  let adm := admissible max_punct (punct_used st) (used_nonpunct st) in
  match greedy_choice bigram_probs max_punct st with
  | (Seed, _) => False
  | (FirstPass, tok) =>
      ∃ p, In (tok, p) row ∧ cand (tok, p) = true
           ∧ ∀ c, In c row → cand c = true → (c.2 <= p)%Q
  | (RelaxedPass, tok) =>
      tok = UNKNOWN ∧ UNKNOWN ∈ row_keys row ∧ adm UNKNOWN = true
      ∧ ∀ c, In c row → cand c = false
  | (AbsoluteFallback, tok) =>
      tok = UNKNOWN ∧ ∀ c, In c row → adm c.1 = false
  end.
Proof.
  cbv zeta. unfold greedy_choice.
  destruct (first_pass _ _ _ _) as [[tok p]|] eqn:E1.
  - rewrite first_pass_filter in E1.
    apply head_filter_sorted_max in E1 as (Hin & Hc & Hmax).
    exists p. split; [done|]. split; [done|].
    intros c Hcin Hcc. by apply (Hmax c).
  - pose proof (first_pass_None _ _ _ _ E1) as Hnone.
    destruct (relaxed_pass _ _ _ _) as [[tok p]|] eqn:E2.
    + apply relaxed_pass_Some in E2 as (Hin & Ha).
      apply (proj1 (sorted_desc_In _ _)) in Hin.
      pose proof (Hnone _ Hin) as Hc. unfold first_step_candidate in Hc.
      simpl in Hc. rewrite Ha in Hc. simpl in Hc.
      apply negb_false_iff, eqb_true_iff in Hc. subst tok.
      split; [done|]. split; [|done].
      apply list_elem_of_fmap. exists (UNKNOWN, p). split; [done|].
      by apply list_elem_of_In.
    + split; [done|]. by apply relaxed_pass_None.
Qed.

(** ** Longer and shorter runs *)

Lemma run_loop_take bigram_probs choice len len' fuel : ∀ fuel' st,
  len ≤ len' →
  Z.of_nat (length (seq st)) ≤ len →
  (Z.to_nat len - length (seq st) ≤ fuel)%nat →
  (Z.to_nat len' - length (seq st) ≤ fuel')%nat →
  seq (run_loop bigram_probs choice len fuel st)
  = take (Z.to_nat len) (seq (run_loop bigram_probs choice len' fuel' st)).
Proof.
  induction fuel as [|fuel IH]; intros fuel' st Hlen Hst Hfuel Hfuel'.
  - simpl. destruct (run_loop_seq_app bigram_probs choice len' fuel' st) as [l ->].
    rewrite take_app_le by lia. rewrite take_ge by lia. done.
  - cbn [run_loop].
    destruct (Z.ltb_spec (Z.of_nat (length (seq st))) len) as [Hlt|Hge].
    + destruct fuel' as [|fuel']; [lia|]. cbn [run_loop].
      destruct (Z.ltb_spec (Z.of_nat (length (seq st))) len') as [_|?]; [|lia].
      apply IH; simpl; rewrite ?length_app; simpl; lia.
    + destruct (run_loop_seq_app bigram_probs choice len' fuel' st) as [l ->].
      rewrite take_app_le by lia. rewrite take_ge by lia. done.
Qed.

(** X10. Asking for more tokens under the same punctuation budget only
    extends the sequence: when floor(N/5) = floor(N'/5) and 0 < N <= N', the
    sequence returned for N is the first N tokens of the one returned
    for N'. *)
Theorem generate_prefix (g : strategy) (bigram_probs : Bigram) (init_word : string)
    (len len' : Z) (s s' : list string) (lp lp' : logv) :
  generate g bigram_probs init_word len = Ok (s, lp) →
  generate g bigram_probs init_word len' = Ok (s', lp') →
  0 < len → len ≤ len' → len / 5 = len' / 5 →
  s = take (Z.to_nat len) s'.
Proof.
  rewrite !generate_run. intros H H' Hpos Hle Hbudget.
  destruct (Z.leb_spec len 0); [lia|]. destruct (Z.leb_spec len' 0); [lia|].
  destruct (initial_logp bigram_probs init_word) as [logp0|]; [|done].
  cbv zeta in *. injection H as <- _. injection H' as <- _.
  rewrite Hbudget. apply run_loop_take; simpl; lia.
Qed.

Lemma generate_prefix_witness :
  ["the"; "cat"; "sat"; "ran"; "dog"]
  = take 5 ["the"; "cat"; "sat"; "ran"; "dog"; ""; ""; ""].
Proof.
  apply (generate_prefix Greedy (bigram_model ex_corpus) "the" 5 8 _ _
           (Ln (12 # 16128)) (Ln (12 # 4064256))).
  - vm_compute. reflexivity.
  - vm_compute. reflexivity.
  - lia.
  - lia.
  - reflexivity.
Defined.

(** X11. One step of the lookahead generator on a table of positive
    probabilities prefers a token other than [UNKNOWN] in the same way: the
    first pass takes an admissible entry other than [UNKNOWN] whenever the
    row has one; only when it has none does the relaxed pass take
    [UNKNOWN], if that is an admissible key of the row; and the fallback
    gives [UNKNOWN] only when the row has no admissible entry. *)
Theorem plus_step_prefers_known (bigram_probs : Bigram) (max_punct : Z) (st : state) :
  table_positiveb bigram_probs = true →
  let row := _get_row bigram_probs (prev st) in
  let cand := first_step_candidate max_punct (punct_used st) (used_nonpunct st) in
  let adm := admissible max_punct (punct_used st) (used_nonpunct st) in
  match plus_choice bigram_probs max_punct st with
  | (Seed, _) => False
  | (FirstPass, tok) => ∃ p, In (tok, p) row ∧ cand (tok, p) = true
  | (RelaxedPass, tok) =>
      tok = UNKNOWN ∧ UNKNOWN ∈ row_keys row ∧ adm UNKNOWN = true
      ∧ ∀ c, In c row → cand c = false
  | (AbsoluteFallback, tok) =>
      tok = UNKNOWN ∧ ∀ c, In c row → adm c.1 = false
  end.
Proof.
  intros Hpos. cbv zeta. unfold plus_choice.
  pose proof (lookahead_pass_max bigram_probs max_punct (punct_used st)
                (used_nonpunct st) (sorted_desc (_get_row bigram_probs (prev st)))
                None NegInf eq_refl) as Hmax.
  cbv zeta in Hmax.
  destruct (lookahead_pass _ _ _ _ _ _ _) as [[tok p]|].
  - destruct Hmax as ([?|[Hin Hc]] & _); [done|].
    exists p. split; [by apply sorted_desc_In|done].
  - destruct Hmax as (_ & Hall).
    assert (∀ c, In c (_get_row bigram_probs (prev st)) →
              first_step_candidate max_punct (punct_used st) (used_nonpunct st) c
              = false) as Hnone.
    { intros c Hc.
      destruct (first_step_candidate _ _ _ c) eqn:Hcc; [exfalso|done].
      apply (lookahead_score_finite bigram_probs max_punct (punct_used st)
               (used_nonpunct st) c.1 c.2).
      - by apply (table_positive_row bigram_probs (prev st)).
      - apply Hall; [by apply sorted_desc_In|done]. }
    destruct (relaxed_pass _ _ _ _) as [[tok p]|] eqn:E2.
    + apply relaxed_pass_Some in E2 as (Hin & Ha).
      apply (proj1 (sorted_desc_In _ _)) in Hin.
      pose proof (Hnone _ Hin) as Hc. unfold first_step_candidate in Hc.
      simpl in Hc. rewrite Ha in Hc. simpl in Hc.
      apply negb_false_iff, eqb_true_iff in Hc. subst tok.
      split; [done|]. split; [|done].
      apply list_elem_of_fmap. exists (UNKNOWN, p). split; [done|].
      by apply list_elem_of_In.
    + split; [done|]. by apply relaxed_pass_None.
Qed.

Lemma plus_step_prefers_known_witness :
  plus_choice (bigram_model ex_corpus) 1 ex_state_exhausted
  = (AbsoluteFallback, UNKNOWN)
  ∧ ∀ c, In c (_get_row (bigram_model ex_corpus) "") →
      admissible 1 0 {["the"; "cat"; "sat"; "ran"; "dog"; ""]} c.1 = false.
Proof.
  pose proof (plus_step_prefers_known (bigram_model ex_corpus) 1 ex_state_exhausted) as H.
  cbv zeta in H.
  assert (plus_choice (bigram_model ex_corpus) 1 ex_state_exhausted
          = (AbsoluteFallback, UNKNOWN)) as E by (vm_compute; reflexivity).
  rewrite E in H. split; [done|].
  apply H. vm_compute. reflexivity.
Defined.

(** ** The empty corpus *)

Lemma corpus_bigrams_blank lines :
  Forall (λ l, strip l = "") lines → corpus_bigrams lines = [].
Proof.
  intros Hall. rewrite <- corpus_bigrams_nonblank.
  replace (filter (λ l, strip l ≠ "") lines) with (@nil string); [done|].
  induction Hall as [|l lines Hl _ IH]; [done|].
  rewrite filter_cons, decide_False; [done|]. by intros ?.
Qed.

Lemma corpus_tokens_blank lines :
  Forall (λ l, strip l = "") lines → flat_map line_tokens lines = [].
Proof.
  intros Hall. rewrite <- corpus_tokens_nonblank.
  replace (filter (λ l, strip l ≠ "") lines) with (@nil string); [done|].
  induction Hall as [|l lines Hl _ IH]; [done|].
  rewrite filter_cons, decide_False; [done|]. by intros ?.
Qed.

(** X12. A corpus without tokens (no line, or blank lines only) gives the
    degenerate model: the rows of [INIT] and [UNKNOWN] and no other, every
    query answers 1, and both generators return the seed followed by
    [UNKNOWN] tokens only. *)
Theorem bigram_model_empty_corpus (g : strategy) (lines : list string)
    (init_word : string) (len : Z) (s : list string) (lp : logv) :
  Forall (λ l, strip l = "") lines →
  generate g (bigram_model lines) init_word len = Ok (s, lp) →
  dom (bigram_model lines) = {[INIT; UNKNOWN]}
  ∧ (∀ prev curr, (_get_prob (bigram_model lines) prev curr == 1)%Q)
  ∧ chain (λ _ b, b = UNKNOWN) s.
Proof.
  intros Hblank Hgen.
  pose proof (corpus_bigrams_blank lines Hblank) as Hbs.
  assert (spec_vocabulary lines = ∅) as Hv
    by (unfold spec_vocabulary; by rewrite corpus_tokens_blank).
  split; [|split].
  - rewrite bigram_model_dom, Hbs. simpl. set_solver.
  - intros prev curr. rewrite get_prob_smoothed, Hbs, Hv.
    rewrite union_empty_l_L, size_singleton. by vm_compute.
  - rewrite generate_run in Hgen.
    destruct (len <=? 0); [by injection Hgen as <- <-; intros i a b Hi|].
    destruct (initial_logp (bigram_model lines) init_word) as [logp0|]; [|done].
    cbv zeta in Hgen. injection Hgen as <- _.
    apply run_loop_chain; [|done|by intros [|i] a b Hi Hsi].
    intros st.
    destruct (strategy_choice_from_row g (bigram_model lines) (len / 5) st)
      as [_ [Hu|Hkey]]; [done|].
    rewrite bigram_model_get_row in Hkey. cbv zeta in Hkey.
    rewrite build_row_keys, count_corpus_vocab, Hv in Hkey.
    apply elem_of_elements in Hkey. set_solver.
Qed.

Lemma bigram_model_empty_corpus_witness :
  dom (bigram_model [""; "  "]) = {[INIT; UNKNOWN]}
  ∧ (∀ prev curr, (_get_prob (bigram_model [""; "  "]) prev curr == 1)%Q)
  ∧ chain (λ _ b, b = UNKNOWN) ["go"; ""; ""].
Proof.
  apply (bigram_model_empty_corpus Greedy [""; "  "] "go" 3 _ (Ln 1)).
  - repeat constructor.
  - vm_compute. reflexivity.
Defined.

(** * Properties of the helpers of [text_processing.py] *)

(** ** [roman_to_int] *)

Lemma roman_numerals_value c v : roman_numerals c = Some v → roman_value v.
Proof.
  unfold roman_numerals, roman_value.
  repeat (destruct (Ascii.eqb c _); [intros [= <-]; tauto|]). done.
Qed.

Lemma is_roman_value c :
  is_roman c = true → ∃ v, roman_numerals c = Some v ∧ roman_value v.
Proof.
  unfold is_roman. destruct (roman_numerals c) as [v|] eqn:E; [|done].
  intros _. exists v. split; [done|]. by eapply roman_numerals_value.
Qed.

Lemma string_all_Forall f s :
  string_all f s = true ↔ Forall (λ c, f c = true) (String.list_ascii_of_string s).
Proof.
  induction s as [|c s IH]; simpl.
  - split; [constructor|done].
  - rewrite andb_true_iff, Forall_cons, IH. done.
Qed.

(** The loop keeps [prev_value <= total], and [prev_value] is a value of
    the dictionary once a character has been read. *)
Lemma roman_fold_inv l : ∀ total prev_value,
  Forall (λ c, is_roman c = true) l →
  prev_value = 0 ∨ roman_value prev_value →
  prev_value ≤ total →
  let acc := foldl roman_step (total, prev_value) l in
  acc.2 ≤ acc.1 ∧ (l = [] ∧ acc.2 = prev_value ∨ roman_value acc.2).
Proof.
  induction l as [|c l IH]; intros total prev_value Hall Hprev Hle; simpl.
  - split; [done|]. by left.
  - apply Forall_cons in Hall as [Hc Hall].
    apply is_roman_value in Hc as (v & Hv & Hval).
    unfold roman_step at 2. rewrite Hv. simpl.
    assert (roman_value prev_value → v < prev_value → 2 * v ≤ prev_value) as Hgap.
    { unfold roman_value in *. lia. }
    assert (0 < v) as Hpos by (unfold roman_value in Hval; lia).
    destruct (Z.ltb_spec v prev_value) as [Hlt|Hge].
    + destruct Hprev as [->|Hprev]; [lia|].
      specialize (Hgap Hprev Hlt).
      destruct (IH (total - v) v Hall (or_intror Hval)) as [H1 H2]; [lia|].
      split; [done|]. right. destruct H2 as [[_ ->]|H2]; done.
    + destruct (IH (total + v) v Hall (or_intror Hval)) as [H1 H2].
      { assert (0 ≤ prev_value) by (destruct Hprev as [->|Hp]; [done|];
                                     unfold roman_value in Hp; lia).
        lia. }
      split; [done|]. right. destruct H2 as [[_ ->]|H2]; done.
Qed.

(** X14. [roman_to_int] reads the standard numerals: for every number from
    1 to 3999 the standard numeral of the number is mapped back to it. *)
Theorem roman_to_int_canonical (n : nat) :
  (1 ≤ n ≤ 3999)%nat →
  roman_to_int (canonical_roman n) = Some (Z.of_nat n).
Proof.
  intros Hn.
  assert (forallb (λ k, bool_decide (roman_to_int (canonical_roman k) = Some (Z.of_nat k)))
                  (List.seq 1 3999) = true) as Hall by (vm_compute; reflexivity).
  rewrite forallb_forall in Hall.
  assert (In n (List.seq 1 3999)) as Hin by (apply in_seq; lia).
  apply Hall in Hin. by apply bool_decide_eq_true in Hin.
Qed.

Lemma roman_to_int_canonical_witness :
  roman_to_int "MCMXCIV" = Some 1994.
Proof.
  apply (roman_to_int_canonical 1994). lia.
Defined.

(** ** Appending numerals *)

Lemma roman_step_zero c :
  is_roman c = true →
  ∃ v, roman_numerals c = Some v ∧ 0 < v ∧ roman_step (0, 0) c = (v, v).
Proof.
  intros Hc. apply is_roman_value in Hc as (v & Hv & Hval).
  exists v. unfold roman_step. rewrite Hv. simpl.
  assert (0 < v) by (unfold roman_value in Hval; lia).
  split; [done|]. split; [done|].
  by destruct (Z.ltb_spec v 0); [lia|].
Qed.

Lemma roman_fold_shift l : ∀ t p d,
  foldl roman_step (t + d, p) l
  = ((foldl roman_step (t, p) l).1 + d, (foldl roman_step (t, p) l).2).
Proof.
  induction l as [|c l IH]; intros t p d; [done|].
  cbn [foldl]. unfold roman_step at 2 4 6.
  destruct (_ <? p).
  - replace (t + d - default 0 (roman_numerals c))
      with (t - default 0 (roman_numerals c) + d) by lia. apply IH.
  - replace (t + d + default 0 (roman_numerals c))
      with (t + default 0 (roman_numerals c) + d) by lia. apply IH.
Qed.

Lemma roman_fold_last acc l c :
  (foldl roman_step acc (l ++ [c])).2 = default 0 (roman_numerals c).
Proof.
  rewrite foldl_app. simpl. destruct (foldl roman_step acc l) as [t p].
  unfold roman_step. by destruct (_ <? p).
Qed.

Lemma list_ascii_of_string_app a b :
  String.list_ascii_of_string (a +:+ b)
  = (String.list_ascii_of_string a ++ String.list_ascii_of_string b)%list.
Proof. induction a as [|c a IH]; simpl; [done|]. by rewrite IH. Qed.

Lemma is_roman_cases c :
  is_roman c = true →
  not_space c = true ∧ upper_char c = c ∧ is_digit c = false.
Proof.
  destruct c as [[] [] [] [] [] [] [] []]; vm_compute;
    first [by intros [=] | by intros _].
Qed.

Lemma strip_no_space s : string_all not_space s = true → strip s = s.
Proof.
  intros Hs. unfold strip.
  assert (lstrip s = s) as ->.
  { destruct s as [|c s]; [done|]. simpl in *.
    apply andb_true_iff in Hs as [Hc _]. unfold not_space in Hc.
    apply negb_true_iff in Hc. by rewrite Hc. }
  induction s as [|c s IH]; [done|]. simpl in *.
  apply andb_true_iff in Hs as [Hc Hs]. unfold not_space in Hc.
  apply negb_true_iff in Hc. by rewrite Hc, IH.
Qed.

Lemma roman_string_plain r :
  string_all is_roman r = true →
  upper (strip r) = r ∧ (r ≠ "" → isdigit r = false).
Proof.
  intros Hr.
  assert (string_all not_space r = true ∧ upper r = r
          ∧ (r ≠ "" → string_all is_digit r = false)) as (Hs & Hu & Hd).
  { induction r as [|c r IH]; [done|]. simpl in *.
    apply andb_true_iff in Hr as [Hc Hr].
    apply is_roman_cases in Hc as (Hc1 & Hc2 & Hc3).
    destruct (IH Hr) as (IH1 & IH2 & _).
    rewrite Hc1, Hc2, Hc3, IH1, IH2. done. }
  split.
  - by rewrite strip_no_space.
  - intros Hne. unfold isdigit. by rewrite Hd, andb_false_r.
Qed.

(** The value of a non-empty string of roman letters. *)
Lemma roman_to_int_letters r :
  string_all is_roman r = true → r ≠ "" →
  roman_to_int r
  = Some (foldl roman_step (0, 0) (rev (String.list_ascii_of_string r))).1.
Proof.
  intros Hr Hne. unfold roman_to_int. cbv zeta.
  destruct (roman_string_plain r Hr) as [-> Hd].
  rewrite (Hd Hne), Hr. simpl.
  apply eqb_false_iff in Hne. by rewrite Hne.
Qed.

(** X13. For a numeral, [roman_to_int] returns a number, and the number is
    at least 1.  A numeral is a string that, once the ASCII white space
    around it is removed and its ASCII letters are put in upper case, is a
    non-empty string of the letters I, V, X, L, C, D and M. *)
Theorem roman_to_int_numeral (roman : string) :
  string_all is_roman (upper (strip roman)) = true →
  upper (strip roman) ≠ "" →
  ∃ n, roman_to_int roman = Some n ∧ 1 ≤ n.
Proof.
  intros Hr Hne. unfold roman_to_int. cbv zeta.
  destruct (roman_string_plain _ Hr) as [_ Hd].
  rewrite (Hd Hne), Hr. simpl.
  pose proof Hne as Hne'. apply eqb_false_iff in Hne'. rewrite Hne'.
  eexists. split; [done|].
  apply string_all_Forall in Hr.
  set (l := String.list_ascii_of_string (upper (strip roman))) in *.
  assert (l ≠ []) as Hl.
  { subst l. by destruct (upper (strip roman)). }
  pose proof (roman_fold_inv (rev l) 0 0) as Hinv. cbv zeta in Hinv.
  destruct Hinv as [H1 H2]; [by apply Forall_rev|by left|done|].
  destruct H2 as [[Hnil _]|Hval].
  - exfalso. apply Hl. by rewrite <- (rev_involutive l), Hnil.
  - unfold roman_value in Hval. lia.
Qed.

Lemma roman_to_int_numeral_witness :
  roman_to_int " xiv " = Some 14
  ∧ ∃ n, roman_to_int " xiv " = Some n ∧ 1 ≤ n.
Proof.
  split; [reflexivity|].
  apply (roman_to_int_numeral " xiv "); [reflexivity|done].
Defined.

(** X15. Appending a numeral to another adds their values, except that a
    last letter of the first that is smaller than the first letter of the
    second counts negatively (a subtractive pair such as IV or XC). *)
Theorem roman_to_int_append (a b : string) (x y : Ascii.ascii) (vx vy na nb : Z) :
  string_all is_roman a = true → string_all is_roman b = true →
  last (String.list_ascii_of_string a) = Some x →
  head (String.list_ascii_of_string b) = Some y →
  roman_numerals x = Some vx → roman_numerals y = Some vy →
  roman_to_int a = Some na → roman_to_int b = Some nb →
  roman_to_int (a +:+ b) = Some (na + nb - (if vx <? vy then 2 * vx else 0)).
Proof.
  intros Ha Hb Hx Hy Hvx Hvy Hna Hnb.
  assert (a ≠ "") as Hane by (by intros ->).
  assert (b ≠ "") as Hbne by (by intros ->).
  rewrite roman_to_int_letters in Hna, Hnb by done.
  injection Hna as <-. injection Hnb as <-.
  rewrite roman_to_int_letters.
  - f_equal. rewrite list_ascii_of_string_app, rev_app_distr, foldl_app.
    set (la := String.list_ascii_of_string a) in *.
    set (lb := String.list_ascii_of_string b) in *.
    assert (∃ la', la = (la' ++ [x])%list) as [la' Hla].
    { destruct (exists_last (l := la)) as (la' & x' & E); [by intros E; rewrite E in Hx|].
      rewrite E, last_snoc in Hx. injection Hx as ->. by exists la'. }
    assert (∃ lb', lb = y :: lb') as [lb' Hlb]
      by (destruct lb as [|y' lb']; [done|]; injection Hy as ->; by exists lb').
    rewrite Hla, rev_unit. cbn [foldl].
    assert ((foldl roman_step (0, 0) (rev lb)).2 = vy) as Hp.
    { rewrite Hlb. simpl. by rewrite roman_fold_last, Hvy. }
    destruct (foldl roman_step (0, 0) (rev lb)) as [tb pb] eqn:Eb. simpl in Hp.
    subst pb. simpl.
    assert (0 < vx) as Hpos.
    { apply roman_numerals_value in Hvx. unfold roman_value in Hvx. lia. }
    rewrite Hvx. simpl.
    destruct (Z.ltb_spec vx 0) as [?|_]; [lia|].
    destruct (Z.ltb_spec vx vy) as [Hlt|Hge].
    + replace (tb - vx) with (0 + vx + (tb - 2 * vx)) by lia.
      rewrite roman_fold_shift. simpl. lia.
    + replace (tb + vx) with (0 + vx + tb) by lia.
      rewrite roman_fold_shift. simpl. lia.
  - apply string_all_Forall. rewrite list_ascii_of_string_app.
    apply Forall_app. split; by apply string_all_Forall.
  - intros E. destruct a; [done|]. done.
Qed.

Lemma roman_to_int_append_witness :
  roman_to_int "XIV" = Some (10 + 4 - 0) ∧ roman_to_int "XC" = Some (10 + 100 - 2 * 10).
Proof.
  split.
  - apply (roman_to_int_append "X" "IV" (char_of "X") (char_of "I") 10 1); reflexivity.
  - apply (roman_to_int_append "X" "C" (char_of "X") (char_of "C") 10 100); reflexivity.
Defined.

(** ** [get_next_nonempty_line] *)

Lemma find_seq_first (f : nat → bool) n : ∀ a,
  match List.find f (List.seq a n) with
  | Some i => (a ≤ i < a + n)%nat ∧ f i = true ∧ ∀ j, (a ≤ j < i)%nat → f j = false
  | None => ∀ j, (a ≤ j < a + n)%nat → f j = false
  end.
Proof.
  induction n as [|n IH]; intros a; simpl.
  - intros j Hj. lia.
  - destruct (f a) eqn:Ha.
    + split; [lia|]. split; [done|]. intros j Hj. lia.
    + specialize (IH (S a)). destruct (List.find f (List.seq (S a) n)) as [i|].
      * destruct IH as (Hi & Hfi & Hbefore). split; [lia|]. split; [done|].
        intros j Hj. destruct (decide (j = a)) as [->|Hne]; [done|].
        apply Hbefore. lia.
      * intros j Hj. destruct (decide (j = a)) as [->|Hne]; [done|].
        apply IH. lia.
Qed.

(** X16. [get_next_nonempty_line] returns the smallest index after
    [start_idx] whose line is not empty: the lines strictly between are
    empty; and it returns [None] exactly when every later line is empty. *)
Theorem get_next_nonempty_line_first (lines : list string) (start_idx : nat) :
  match get_next_nonempty_line lines start_idx with
  | Some i =>
      (start_idx < i < length lines)%nat
      ∧ (∃ line, lines !! i = Some line ∧ line ≠ "")
      ∧ ∀ j, (start_idx < j < i)%nat → lines !! j = Some ""
  | None => ∀ j, (start_idx < j < length lines)%nat → lines !! j = Some ""
  end.
Proof.
  unfold get_next_nonempty_line.
  set (f := λ i, negb (String.eqb (default "" (lines !! i)) "")).
  pose proof (find_seq_first f (length lines - (start_idx + 1)) (start_idx + 1)) as H.
  assert (∀ j, (j < length lines)%nat → f j = false → lines !! j = Some "") as Hempty.
  { intros j Hj Hf. subst f. simpl in Hf.
    apply negb_false_iff, eqb_true_iff in Hf.
    destruct (lookup_lt_is_Some_2 lines j Hj) as [line Hline].
    rewrite Hline in Hf. simpl in Hf. by subst line. }
  destruct (List.find f _) as [i|].
  - destruct H as (Hi & Hfi & Hbefore). split; [lia|]. split.
    + assert (i < length lines)%nat as Hlt by lia.
      destruct (lookup_lt_is_Some_2 lines i Hlt) as [line Hline].
      exists line. split; [done|]. subst f. simpl in Hfi. rewrite Hline in Hfi.
      simpl in Hfi. by apply negb_true_iff, eqb_false_iff in Hfi.
    + intros j Hj. apply Hempty; [lia|]. apply Hbefore. lia.
  - intros j Hj. apply Hempty; [lia|]. apply H. lia.
Qed.

(** * Further properties of [language_models.py], continued *)

(** ** Which rows are materialized *)

Lemma zip_fst_take {A B} (l1 : list A) (l2 : list B) :
  (zip l1 l2).*1 = take (length l2) l1.
Proof.
  revert l2. induction l1 as [|x l1 IH]; intros [|y l2]; simpl; try done.
  by rewrite IH.
Qed.

Lemma line_bigrams_fst words p :
  p ∈ (line_bigrams words).*1 ↔
    (p = INIT ∧ words ≠ []) ∨ ∃ i, words !! i = Some p ∧ (S i < length words)%nat.
Proof.
  unfold line_bigrams. rewrite zip_fst_take.
  destruct words as [|w words]; simpl.
  - split; [by intros ?%elem_of_nil|]. intros [[_ ?]|(i & _ & ?)]; [done|lia].
  - rewrite elem_of_cons. split.
    + intros [->|Hin]; [left; by split|right].
      apply list_elem_of_lookup in Hin as [i Hi].
      pose proof (lookup_lt_Some _ _ _ Hi) as Hlt. rewrite length_take in Hlt.
      rewrite lookup_take_lt in Hi by lia.
      exists i. split; [done|]. lia.
    + intros [[-> _]|(i & Hi & Hlt)]; [by left|right].
      apply list_elem_of_lookup. exists i.
      rewrite lookup_take_lt by lia. done.
Qed.

(** X17. The rows of a built model: one for [INIT], one for [UNKNOWN], and
    one for each token that is followed by another token on some line.  A
    token that only ever ends a line has no row of its own (queries after
    it fall back to the row of [UNKNOWN]). *)
Theorem bigram_model_rows (lines : list string) (p : string) :
  p ∈ dom (bigram_model lines) ↔
    p = INIT ∨ p = UNKNOWN
    ∨ ∃ line i, line ∈ lines ∧ line_tokens line !! i = Some p
                ∧ (S i < length (line_tokens line))%nat.
Proof.
  rewrite elem_of_dom, bigram_model_lookup. cbv zeta.
  destruct (count_corpus_tallies lines) as (_ & _ & Hd).
  assert (p ∈ (corpus_bigrams lines).*1 ↔
          ∃ line, line ∈ lines ∧ p ∈ (line_bigrams (line_tokens line)).*1) as Hbs.
  { unfold corpus_bigrams. rewrite list_elem_of_fmap. split.
    - intros (b & -> & Hb). apply list_elem_of_In, in_flat_map in Hb as (line & Hl & Hb).
      exists line. split; [by apply list_elem_of_In|].
      apply list_elem_of_fmap. exists b. split; [done|by apply list_elem_of_In].
    - intros (line & Hl & Hp). apply list_elem_of_fmap in Hp as (b & -> & Hb).
      exists b. split; [done|]. apply list_elem_of_In, in_flat_map.
      exists line. split; by apply list_elem_of_In. }
  case_decide as Hin; rewrite Hd in Hin.
  - split; [intros _|by eauto].
    apply elem_of_union in Hin as [Hin|Hin]; [|right; left; set_solver].
    apply elem_of_union in Hin as [Hin|Hin]; [|left; set_solver].
    apply elem_of_list_to_set, Hbs in Hin as (line & Hl & Hp).
    apply line_bigrams_fst in Hp as [[-> _]|(i & Hi & Hlt)]; [by left|].
    right. right. by exists line, i.
  - split; [by intros [? ?]|]. intros Hp. exfalso. apply Hin.
    destruct Hp as [->|[->|(line & i & Hl & Hi & Hlt)]]; [set_solver..|].
    apply elem_of_union_l, elem_of_union_l, elem_of_list_to_set, Hbs.
    exists line. split; [done|]. apply line_bigrams_fst. right. by exists i.
Qed.

(** ** Punctuation tokens *)

Lemma string_all_app f a b :
  string_all f (a +:+ b) = string_all f a && string_all f b.
Proof.
  induction a as [|c a IH]; simpl; [done|]. by rewrite IH, andb_assoc.
Qed.

(** X18. A token made of two non-empty parts is a punctuation token only
    if both parts are: a word with punctuation attached to it, such as a
    word followed by a comma, is not a punctuation token. *)
Theorem is_punct_append (a b : string) :
  a ≠ "" → b ≠ "" →
  _is_punct (a +:+ b) = _is_punct a && _is_punct b.
Proof.
  intros Ha Hb. unfold _is_punct. rewrite string_all_app.
  apply eqb_false_iff in Ha, Hb. rewrite Ha, Hb. simpl.
  destruct a as [|c a]; [done|]. simpl. done.
Qed.

Lemma is_punct_append_witness :
  _is_punct ("wait" +:+ ",") = _is_punct "wait" && _is_punct ",".
Proof. by apply is_punct_append. Defined.
